(** * Site Kit data API: the batching and caching layer ([dataAPI])

    A shallow embedding of [assets/js/components/data/index.js]
    (the file with [requestWithDateRange], [combinedGet], [handleWPError]
    and [resolve]) and the properties of its request scheduling. *)

From Stdlib Require Import ZArith String Ascii List Lia.
From stdpp Require Import base option list gmap strings sorting.

Open Scope string_scope.
Open Scope list_scope.
Open Scope Z_scope.

(** ** Data model *)

(** JSON scalars, as they occur as option values of [request.data]. *)
Inductive value :=
| VNull
| VBool (b : bool)
| VNumber (n : Z)
| VString (s : string).

#[global] Instance value_eq_dec : EqDecision value.
Proof. solve_decision. Defined.

(** A caller supplied callback.  Only two things about it are observable
    from the data API: that it was called (with which arguments), and
    whether the call returned or threw. *)
Record callback_fn := Callback { cb_id : nat; cb_throws : bool }.

#[global] Instance callback_fn_eq_dec : EqDecision callback_fn.
Proof. solve_decision. Defined.

(** A data request object.  [data], [priority], [callback] and [key] are
    optional properties: [None] is an absent property.  [key] is what
    [combinedGet] attaches after normalising. *)
Record request := Request {
  type : string;
  identifier : string;
  datapoint : string;
  data : option (gmap string value);
  maxAge : Z;
  priority : option Z;
  callback : option callback_fn;
  key : option string;
}.

Definition set_data (r : request) (d : gmap string value) : request :=
  {| type := type r; identifier := identifier r; datapoint := datapoint r;
     data := Some d; maxAge := maxAge r; priority := priority r;
     callback := callback r; key := key r |}.

Definition set_key (r : request) (k : string) : request :=
  {| type := type r; identifier := identifier r; datapoint := datapoint r;
     data := data r; maxAge := maxAge r; priority := priority r;
     callback := callback r; key := Some k |}.

(** ** Request normaliser *)

(** [s.replace( pat, rep )] with a string pattern: the first occurrence of
    [pat] in [s] is replaced, and [s] is returned as it is when there is
    none. *)
Fixpoint replace_first (pat rep s : string) : string :=
  if String.prefix pat s then rep +:+ String.substring (String.length pat) (String.length s - String.length pat) s
  else match s with
       | EmptyString => EmptyString
       | String c s' => String c (replace_first pat rep s')
       end.

Definition placeholder : string := "prev-date-range-placeholder".

(** [requestWithDateRange( originalRequest, dateRange )]. *)
Definition requestWithDateRange (originalRequest : request) (dateRange : string) : request :=
  (* const request = { data: {}, ...originalRequest }; *)
  let d := default ∅ (data originalRequest) in
  if decide (d !! "dateRange" = Some (VString placeholder)) then
    let prevDateRange := replace_first "last" "prev" dateRange in
    (* request.data = { ...request.data, dateRange: prevDateRange }; *)
    set_data originalRequest (<["dateRange" := VString prevDateRange]> d)
  else
    (* request.data = { dateRange, ...request.data }; *)
    set_data originalRequest (d ∪ {["dateRange" := VString dateRange]}).

(** ** Per-key results and the cache store *)

(** The [data] member of an error payload. *)
Record error_data := ErrorData {
  status : Z;
  reason : option string;
  reconnectURL : option string;
}.

(** What the batch endpoint answers for one key: a success payload (opaque
    JSON, kept serialised) or an error payload [{ code, message, data }]. *)
Inductive result :=
| RData (payload : string)
| RError (code message : string) (edata : option error_data).

(** Modelled from the spec: [isWPError] of [util/errors], which is not among
    the sources.  A result is a service-side error when it has the shape of
    an error payload. *)
Definition isWPError (r : result) : bool :=
  match r with
  | RError _ _ _ => true
  | RData _ => false
  end.

Record cache_entry := CacheEntry { cached_value : result; storedAt : Z }.

(** Modelled from the spec: [getCache] and [setCache] of [./cache], which is
    not among the sources.  An entry is valid for reads only while
    [now - storedAt < ttlSeconds]; an expired entry is treated as absent. *)
Definition getCache (now : Z) (c : gmap string cache_entry) (k : string) (ttl : Z) : option result :=
  match c !! k with
  | Some e => if bool_decide (now - storedAt e < ttl) then Some (cached_value e) else None
  | None => None
  end.

Definition setCache (now : Z) (c : gmap string cache_entry) (k : string) (v : result) : gmap string cache_entry :=
  <[k := CacheEntry v now]> c.

(** ** Hooks, events and pending work *)

Inductive component := DashboardAuthScopesAlert | DashboardPermissionAlert | AuthError.

(** The two kinds of function [handleWPError] passes to [addFilter]. *)
Inductive filter_callback :=
| fillFilterWithComponent (c : component)
| AuthCountIncrease (addedNoticeCount : Z).

(** One [addFilter( hookName, namespace, callback, priority )] call. *)
Record filter_reg := FilterReg {
  hookName : string;
  namespace : string;
  fcallback : filter_callback;
  fpriority : Z;
}.

#[global] Instance component_eq_dec : EqDecision component.
Proof. solve_decision. Defined.
#[global] Instance filter_callback_eq_dec : EqDecision filter_callback.
Proof. solve_decision. Defined.
#[global] Instance filter_reg_eq_dec : EqDecision filter_reg.
Proof. solve_decision. Defined.

Inductive exn :=
| TypeError (msg : string)
| CallbackThrew (cb : nat).

Inductive source := FromCache | FromAPI.

(** Effects that leave the data API, in the order they happen. *)
Inductive event :=
| Called (cb : nat) (res : result) (dp : string)
    (* request.callback( result, request.datapoint ) *)
| DataLoaded (src : source)
    (* doAction( 'googlesitekit.dataLoaded', 'cache' | 'api' ) *)
| ApiFetch (datacache : bool) (currentRequest : list request)
    (* apiFetch( { path, data: { request: currentRequest }, method: 'POST' } ) *)
| ConsoleError (msg : string)
| ConsoleWarn (msg : string)
| TrackAPIError (method dp ty ident : string) (error : result)
| Uncaught (e : exn).

(** What a network call keeps alive in the closure of its [then] handler. *)
Record fetch_ctx := FetchCtx {
  fc_currentRequest : list request;
  fc_dataRequest : list request;
  fc_keyIndexesMap : gmap string (list nat);
  fc_remainingDatapoints : list request;
}.

(** Work that the event loop still has to run. *)
Inductive task :=
| ResolveTimer (delay : Z) (req : request) (cached : result)
    (* setTimeout( () => this.resolve( request, cache ), cacheDelay ) *)
| CombinedGetTimer (delay : Z) (combinedRequest : list request) (secondaryRequest : bool)
    (* setTimeout( () => this.combinedGet( remainingDatapoints, true ), 50 ) *)
| PendingFetch (ctx : fetch_ctx).

Record state := State {
  cache : gmap string cache_entry;
  now : Z;
  dateRangeSlug : string;      (* what getCurrentDateRangeSlug() returns *)
  maxRequests : Z;             (* dataAPI.maxRequests *)
  filters : list filter_reg;   (* the addFilter registrations, in call order *)
  trace : list event;
  tasks : list task;
}.

(** The state of a freshly loaded page. *)
Definition initial_state (slug : string) (t0 : Z) : state :=
  {| cache := ∅; now := t0; dateRangeSlug := slug; maxRequests := 10;
     filters := []; trace := []; tasks := [] |}.

(** ** A state and exception monad *)

Inductive outcome (A : Type) :=
| Returned (a : A)
| Threw (e : exn).
Arguments Returned {A} a.
Arguments Threw {A} e.

Definition M (A : Type) : Type := state -> outcome A * state.

Definition ret {A} (a : A) : M A := fun s => (Returned a, s).
Definition throw {A} (e : exn) : M A := fun s => (Threw e, s).
Definition bind {A B} (m : M A) (f : A -> M B) : M B :=
  fun s => match m s with
           | (Returned a, s') => f a s'
           | (Threw e, s') => (Threw e, s')
           end.
(** [try { m } catch ( err ) { h err }] *)
Definition try_catch {A} (m : M A) (h : exn -> M A) : M A :=
  fun s => match m s with
           | (Returned a, s') => (Returned a, s')
           | (Threw e, s') => h e s'
           end.

Notation "x <- c1 ;; c2" := (bind c1 (fun x => c2))
  (at level 100, c1 at next level, right associativity).
Notation "c1 ;;; c2" := (bind c1 (fun _ => c2))
  (at level 100, right associativity).

Definition get_state : M state := fun s => (Returned s, s).
Definition modify (f : state -> state) : M unit := fun s => (Returned tt, f s).

Definition emit (e : event) : M unit :=
  modify (fun s => {| cache := cache s; now := now s; dateRangeSlug := dateRangeSlug s;
                      maxRequests := maxRequests s; filters := filters s;
                      trace := trace s ++ [e]; tasks := tasks s |}).

Definition schedule (t : task) : M unit :=
  modify (fun s => {| cache := cache s; now := now s; dateRangeSlug := dateRangeSlug s;
                      maxRequests := maxRequests s; filters := filters s;
                      trace := trace s; tasks := tasks s ++ [t] |}).

Definition set_maxRequests (n : Z) : M unit :=
  modify (fun s => {| cache := cache s; now := now s; dateRangeSlug := dateRangeSlug s;
                      maxRequests := n; filters := filters s;
                      trace := trace s; tasks := tasks s |}).

Definition set_filters (fs : list filter_reg) : M unit :=
  modify (fun s => {| cache := cache s; now := now s; dateRangeSlug := dateRangeSlug s;
                      maxRequests := maxRequests s; filters := fs;
                      trace := trace s; tasks := tasks s |}).

Definition write_cache (k : string) (v : result) : M unit :=
  modify (fun s => {| cache := setCache (now s) (cache s) k v; now := now s;
                      dateRangeSlug := dateRangeSlug s;
                      maxRequests := maxRequests s; filters := filters s;
                      trace := trace s; tasks := tasks s |}).

(** [each( l, f )] over an array, for an [f] that never returns [false]. *)
Fixpoint each {A} (l : list A) (f : A -> M unit) : M unit :=
  match l with
  | [] => ret tt
  | x :: l' => f x ;;; each l' f
  end.

(** ** Error classifier and resolver dispatch *)

(** [addFilter]: the registration is recorded; the store keeps every
    registration, also one whose hook and namespace are registered already. *)
Definition addFilter (hook ns : string) (cb : filter_callback) (prio : Z) : M unit :=
  s <- get_state ;; set_filters (filters s ++ [FilterReg hook ns cb prio]).

(** [removeFilter]: every registration of the namespace on the hook goes. *)
Definition removeFilter (hook ns : string) : M unit :=
  s <- get_state ;;
  set_filters (filter (fun r => ¬ (hookName r = hook ∧ namespace r = ns)) (filters s)).

(** JavaScript truthiness of an optional string member. *)
Definition truthy (s : option string) : bool :=
  match s with
  | Some s => negb (String.eqb s "")
  | None => false
  end.

Definition reason_is (data : error_data) (r : string) : bool :=
  bool_decide (reason data = Some r).

(** [handleWPError( { method, datapoint, type, identifier, error } )]. *)
Definition handleWPError (method dp ty ident : string) (error : result) : M unit :=
  emit (ConsoleWarn "WP Error in data response") ;;;
  emit (TrackAPIError method dp ty ident error) ;;;
  match error with
  | RError _ _ (Some data) =>
    if negb (truthy (reason data)) && negb (truthy (reconnectURL data)) then ret tt
    else
      let addedNoticeCount := 0 in
      (* Add insufficient scopes warning. *)
      addedNoticeCount <-
        (if reason_is data "authError" || reason_is data "insufficientPermissions" then
           addFilter "googlesitekit.ErrorNotification" "googlesitekit.AuthNotification"
                     (fillFilterWithComponent DashboardAuthScopesAlert) 1 ;;;
           ret (addedNoticeCount + 1)
         else ret addedNoticeCount) ;;
      (* Insufficient access permissions. *)
      addedNoticeCount <-
        (if reason_is data "forbidden" then
           addFilter "googlesitekit.ErrorNotification" "googlesitekit.AuthNotification"
                     (fillFilterWithComponent DashboardPermissionAlert) 1 ;;;
           ret (addedNoticeCount + 1)
         else ret addedNoticeCount) ;;
      addedNoticeCount <-
        (if truthy (reconnectURL data) then
           addFilter "googlesitekit.ErrorNotification" "googlesitekit.AuthNotification"
                     (fillFilterWithComponent AuthError) 1 ;;;
           ret (addedNoticeCount + 1)
         else ret addedNoticeCount) ;;
      if bool_decide (addedNoticeCount ≠ 0) then
        addFilter "googlesitekit.TotalNotifications" "googlesitekit.AuthCountIncrease"
                  (AuthCountIncrease addedNoticeCount) 10
      else ret tt
  | _ => ret tt   (* ! data *)
  end.

(** The body of the function registered on 'googlesitekit.TotalNotifications':
    it removes itself ("only run once") and adds the notices to the count. *)
Definition runAuthCountIncrease (addedNoticeCount count : Z) : M Z :=
  removeFilter "googlesitekit.TotalNotifications" "googlesitekit.AuthCountIncrease" ;;;
  ret (count + addedNoticeCount).

(** [resolve( request, result )]. *)
Definition resolve (req : request) (res : result) : M unit :=
  match callback req with
  | Some cb =>
    emit (Called (cb_id cb) res (datapoint req)) ;;;
    if cb_throws cb then throw (CallbackThrew (cb_id cb)) else ret tt
  | None => ret tt
  end.

(** ** Batch scheduler *)

(** What the page provides to the data API besides the state: the cache key
    serialisation of [./cache] (not among the sources) and whether the
    [datacache] query parameter is set. *)
Class Platform := {
  getCacheKey : string -> string -> string -> gmap string value -> string;
  datacacheParam : bool;
}.

(** [request.key] once [combinedGet] has attached it. *)
Definition key_of (r : request) : string := default "" (key r).

(** Order of [sortBy( dataRequest, 'priority' )]: numbers ascending, a
    missing priority after every number. *)
Definition priority_le (a b : option Z) : bool :=
  match a, b with
  | Some x, Some y => bool_decide (x ≤ y)
  | Some _, None => true
  | None, Some _ => false
  | None, None => true
  end.

Fixpoint insert_by_priority (x : request) (l : list request) : list request :=
  match l with
  | [] => [x]
  | y :: l' =>
    if priority_le (priority x) (priority y) then x :: y :: l'
    else y :: insert_by_priority x l'
  end.

(** [sortBy] is a stable sort: requests of equal priority keep their order. *)
Fixpoint sortBy_priority (l : list request) : list request :=
  match l with
  | [] => []
  | x :: l' => insert_by_priority x (sortBy_priority l')
  end.

(** [request.priority < 10] and [10 <= request.priority]; both are false for
    a missing priority. *)
Definition priority_lt_10 (r : request) : bool :=
  match priority r with Some p => bool_decide (p < 10) | None => false end.
Definition priority_ge_10 (r : request) : bool :=
  match priority r with Some p => bool_decide (10 ≤ p) | None => false end.

(** [dataRequest[ keyIndexesMap[ key ] ]]: the array of indexes is used as a
    property name, that is, converted to the string of its elements joined by
    commas.  That names an element of [dataRequest] only when there is
    exactly one index. *)
Definition lookup_by_array {A} (l : list A) (idxs : list nat) : option A :=
  match idxs with
  | [i] => l !! i
  | _ => None
  end.

Section Scheduler.
Context `{Platform}.

(** The first two statements of the loop body over [combinedRequest]. *)
Definition keyed (dateRange : string) (originalRequest : request) : request :=
  let req := requestWithDateRange originalRequest dateRange in
  set_key req (getCacheKey (type req) (identifier req) (datapoint req)
                           (default ∅ (data req))).

(** The loop over [combinedRequest]: the timers of the cache matches and the
    queue [dataRequest] of the others. *)
Fixpoint splitCached (s : state) (combinedRequest : list request) (cacheDelay : Z)
  : list task * list request :=
  match combinedRequest with
  | [] => ([], [])
  | originalRequest :: rest =>
    let req := keyed (dateRangeSlug s) originalRequest in
    match getCache (now s) (cache s) (key_of req) (maxAge req) with
    | Some cached =>
      let '(timers, queue) := splitCached s rest (cacheDelay + 25) in
      (ResolveTimer cacheDelay req cached :: timers, queue)
    | None =>
      let '(timers, queue) := splitCached s rest cacheDelay in
      (timers, req :: queue)
    end
  end.

(** The three collections the loop "only request each key once" fills.
    [keyIndexesMap] is an object used as a map from cache keys to arrays of
    indexes; cache keys are taken not to name a member of
    [Object.prototype]. *)
Record buckets := Buckets {
  toRequest : list request;
  deferredRequests : list request;
  keyIndexesMap : gmap string (list nat);
}.

(** The loop "only request each key once" over the sorted [dataRequest],
    from position [index] on. *)
Fixpoint distribute (defer : request -> bool) (l : list request) (index : nat) (b : buckets)
  : buckets :=
  match l with
  | [] => b
  | req :: rest =>
    distribute defer rest (S index)
      (if defer req then
         Buckets (toRequest b) (deferredRequests b ++ [req]) (keyIndexesMap b)
       else match keyIndexesMap b !! key_of req with
            | None =>
              Buckets (toRequest b ++ [req]) (deferredRequests b)
                      (<[key_of req := [index]]> (keyIndexesMap b))
            | Some idxs =>
              Buckets (toRequest b) (deferredRequests b)
                      (<[key_of req := idxs ++ [index]]> (keyIndexesMap b))
            end)
  end.

Definition maxDatapointsPerRequest : nat := 10.

(** Everything [combinedGet] computes before its first effect. *)
Record plan := Plan {
  cacheTimers : list task;
  dataRequest : list request;
  noLowPriorityRequests : bool;
  sorted : buckets;
  currentRequest : list request;
  remainingDatapoints : list request;
}.

Definition defer_test (secondaryRequest noLow : bool) (req : request) : bool :=
  negb secondaryRequest && priority_ge_10 req && noLow.

Definition make_plan (s : state) (combinedRequest : list request) (secondaryRequest : bool) : plan :=
  let '(timers, queue) := splitCached s combinedRequest 25 in
  let dataRequest := sortBy_priority queue in
  let noLow := existsb priority_lt_10 dataRequest in
  let b := distribute (defer_test secondaryRequest noLow) dataRequest 0 (Buckets [] [] ∅) in
  {| cacheTimers := timers;
     dataRequest := dataRequest;
     noLowPriorityRequests := noLow;
     sorted := b;
     currentRequest := take maxDatapointsPerRequest (toRequest b);
     remainingDatapoints := drop maxDatapointsPerRequest (toRequest b) ++ deferredRequests b |}.

Definition plan_ctx (p : plan) : fetch_ctx :=
  FetchCtx (currentRequest p) (dataRequest p) (keyIndexesMap (sorted p)) (remainingDatapoints p).

(** [combinedGet( combinedRequest, secondaryRequest )], up to the point where
    the promise of [apiFetch] is pending. *)
Definition combinedGet (combinedRequest : list request) (secondaryRequest : bool) : M unit :=
  s <- get_state ;;
  let p := make_plan s combinedRequest secondaryRequest in
  each (cacheTimers p) schedule ;;;
  if bool_decide (currentRequest p = [] ∧ remainingDatapoints p = []) then
    (* Trigger an action indicating this data load completed from the cache. *)
    emit (DataLoaded FromCache)
  else
    (* Fetch the remaining datapoints in another request. *)
    (if bool_decide (remainingDatapoints p ≠ []) then
       (* 0 < this.maxRequests-- *)
       set_maxRequests (maxRequests s - 1) ;;;
       if bool_decide (0 < maxRequests s) then
         schedule (CombinedGetTimer 50 (remainingDatapoints p) true)
       else set_maxRequests 10
     else set_maxRequests 10) ;;;
    emit (ApiFetch datacacheParam (currentRequest p)) ;;;
    schedule (PendingFetch (plan_ctx p)).

(** The body of the loop over the indexes recorded for a response key. *)
Definition dispatch (ctx : fetch_ctx) (isError : bool) (res : result) (index : nat) : M unit :=
  match fc_dataRequest ctx !! index with
  | Some req =>
    (if negb isError then write_cache (key_of req) res else ret tt) ;;;
    resolve req res
  | None => throw (TypeError "Cannot read property 'key' of undefined")
  end.

(** The body of the loop over the entries of a response. *)
Definition handleResult (ctx : fetch_ctx) (entry : string * result) : M unit :=
  let '(k, res) := entry in
  match fc_keyIndexesMap ctx !! k with
  | None => emit (ConsoleError ("unknown response key " +:+ k))
  | Some idxs =>
    let isError := isWPError res in
    (if isError then
       match lookup_by_array (fc_dataRequest ctx) idxs with
       | Some r => handleWPError "POST" (datapoint r) (type r) (identifier r) res
       | None => throw (TypeError "Cannot destructure property 'datapoint' of undefined")
       end
     else ret tt) ;;;
    each idxs (dispatch ctx isError res) ;;;
    (* Trigger an action indicating this data load completed from the API. *)
    if bool_decide (fc_remainingDatapoints ctx = []) then emit (DataLoaded FromAPI)
    else ret tt
  end.

(** The [then] handler of the network call with its [catch]. *)
Definition onResponse (ctx : fetch_ctx) (results : list (string * result)) : M unit :=
  try_catch (each results (handleResult ctx))
            (fun err => emit (ConsoleWarn "Error caught during combinedGet")).

(** The network call rejects: only the [catch] handler runs. *)
Definition onReject : M unit :=
  emit (ConsoleWarn "Error caught during combinedGet").

(** ** The event loop *)

(** The batch endpoint: what it answers to a list of requests, [None] when
    the call fails as a whole. *)
Definition server := list request -> option (list (string * result)).

(** One turn of the event loop: time passes, a timer fires or a network call
    is answered.  Timers may fire in any order. *)
Inductive turn :=
| Tick (dt : nat)
| Fire (i : nat)
| Respond (i : nat).

Definition remove_task (i : nat) (s : state) : state :=
  {| cache := cache s; now := now s; dateRangeSlug := dateRangeSlug s;
     maxRequests := maxRequests s; filters := filters s;
     trace := trace s; tasks := delete i (tasks s) |}.

Definition advance (dt : nat) (s : state) : state :=
  {| cache := cache s; now := now s + Z.of_nat dt; dateRangeSlug := dateRangeSlug s;
     maxRequests := maxRequests s; filters := filters s;
     trace := trace s; tasks := tasks s |}.

(** A function run from the event loop: what it throws is reported and lost. *)
Definition run_toplevel (m : M unit) (s : state) : state :=
  snd (try_catch m (fun err => emit (Uncaught err)) s).

Definition step (srv : server) (t : turn) (s : state) : state :=
  match t with
  | Tick dt => advance dt s
  | Fire i =>
    match tasks s !! i with
    | Some (ResolveTimer _ req cached) =>
      run_toplevel (resolve req cached) (remove_task i s)
    | Some (CombinedGetTimer _ combinedRequest secondaryRequest) =>
      run_toplevel (combinedGet combinedRequest secondaryRequest) (remove_task i s)
    | _ => s
    end
  | Respond i =>
    match tasks s !! i with
    | Some (PendingFetch ctx) =>
      match srv (fc_currentRequest ctx) with
      | Some results => run_toplevel (onResponse ctx results) (remove_task i s)
      | None => run_toplevel onReject (remove_task i s)
      end
    | _ => s
    end
  end.

Definition run (srv : server) (turns : list turn) (s : state) : state :=
  fold_left (fun s t => step srv t s) turns s.

(** The network calls made so far. *)
Definition fetches (s : state) : list (list request) :=
  omap (fun e => match e with ApiFetch _ l => Some l | _ => None end) (trace s).

End Scheduler.

(** ** The normaliser on the object store

    [requestWithDateRange] builds new objects.  To say that it leaves the
    caller's objects alone, requests are objects in a store here, and a
    request refers to its [data] object by location. *)
Module Heap.

Abbreviation loc := positive.

Inductive jsval :=
| JPrim (v : value)
| JRef (l : loc)
| JFunction (f : callback_fn).

#[global] Instance jsval_eq_dec : EqDecision jsval.
Proof. solve_decision. Defined.

Abbreviation object := (gmap string jsval).
Abbreviation heap := (gmap positive (gmap string jsval)).

(** An object literal: a new object at a location not in use. *)
Definition alloc (h : heap) (o : object) : loc * heap :=
  let l := fresh (dom h) in (l, <[l := o]> h).

(** [obj.name = v] on an existing object. *)
Definition set_property (h : heap) (l : loc) (name : string) (v : jsval) : heap :=
  match h !! l with
  | Some o => <[l := <[name := v]> o]> h
  | None => h
  end.

(** [requestWithDateRange( originalRequest, dateRange )]: the location of
    the new request object and the store after the call.  [None] stands for
    the cases left out: [originalRequest] is not an object, or its [data]
    member is present and not an object. *)
Definition requestWithDateRange (h : heap) (originalRequest : loc) (dateRange : string)
  : option (loc * heap) :=
  match h !! originalRequest with
  | None => None
  | Some orig =>
    (* const request = { data: {}, ...originalRequest }; *)
    let '(l_empty, h1) := alloc h ∅ in
    let request_obj := orig ∪ {["data" := JRef l_empty]} in
    let '(l_request, h2) := alloc h1 request_obj in
    match request_obj !! "data" with
    | Some (JRef l_data) =>
      match h2 !! l_data with
      | None => None
      | Some d =>
        if decide (d !! "dateRange" = Some (JPrim (VString placeholder))) then
          let prevDateRange := replace_first "last" "prev" dateRange in
          (* request.data = { ...request.data, dateRange: prevDateRange }; *)
          let '(l_new, h3) := alloc h2 (<["dateRange" := JPrim (VString prevDateRange)]> d) in
          Some (l_request, set_property h3 l_request "data" (JRef l_new))
        else
          (* request.data = { dateRange, ...request.data }; *)
          let '(l_new, h3) := alloc h2 (d ∪ {["dateRange" := JPrim (VString dateRange)]}) in
          Some (l_request, set_property h3 l_request "data" (JRef l_new))
      end
    | _ => None
    end
  end.

(** [request.key = k], as [combinedGet] does on the normalised copy. *)
Definition attach_key (h : heap) (l_request : loc) (k : string) : heap :=
  set_property h l_request "key" (JPrim (VString k)).

(** The option values of a [data] object, as the scheduler sees them. *)
Definition view_data (d : object) : gmap string value :=
  omap (fun v => match v with JPrim p => Some p | _ => None end) d.

(** The [data] member of the request at [l], read through the store. *)
Definition data_at (h : heap) (l : loc) : option (gmap string value) :=
  match h !! l with
  | Some o =>
    match o !! "data" with
    | Some (JRef l_data) => view_data <$> h !! l_data
    | _ => None
    end
  | None => None
  end.

(** A [data] object whose members are all JSON scalars. *)
Definition scalar_object (d : object) : Prop :=
  ∀ k v, d !! k = Some v → ∃ p, v = JPrim p.

End Heap.


(** ** Reference definitions for the scheduler's loops *)

(** [a] may come before [b] in the sorted queue. *)
Definition priority_rel (a b : request) : Prop :=
  priority_le (priority a) (priority b) = true.

(** The requests of [l] that are not deferred and whose key was not seen
    before, in order. *)
Fixpoint first_occurrences (defer : request -> bool) (seen : gset string) (l : list request)
  : list request :=
  match l with
  | [] => []
  | r :: rest =>
    if defer r then first_occurrences defer seen rest
    else if decide (key_of r ∈ seen) then first_occurrences defer seen rest
    else r :: first_occurrences defer ({[key_of r]} ∪ seen) rest
  end.

(** The positions, counted from [index], of the requests of [l] that are not
    deferred and have key [k]. *)
Fixpoint key_indexes (defer : request -> bool) (k : string) (l : list request) (index : nat)
  : list nat :=
  match l with
  | [] => []
  | r :: rest =>
    if negb (defer r) && bool_decide (key_of r = k)
    then index :: key_indexes defer k rest (S index)
    else key_indexes defer k rest (S index)
  end.

(** The indexes recorded for a key so far, extended by more of them. *)
Definition extend_indexes (old : option (list nat)) (more : list nat) : option (list nat) :=
  match old, more with
  | None, [] => None
  | None, _ => Some more
  | Some idxs, _ => Some (idxs ++ more)
  end.

(** ** Reference definitions for the response handling *)

(** The callback of [r] throws when it is called. *)
Definition throws (r : request) : bool :=
  match callback r with
  | Some cb => cb_throws cb
  | None => false
  end.

(** The call that resolving [r] with [res] makes, if [r] has a callback. *)
Definition call_event (r : request) (res : result) : list event :=
  match callback r with
  | Some cb => [Called (cb_id cb) res (datapoint r)]
  | None => []
  end.

Definition is_api_signal (e : event) : bool :=
  match e with
  | DataLoaded FromAPI => true
  | _ => false
  end.

(** How often "data loaded from the API" was signalled. *)
Definition api_signals (tr : list event) : nat :=
  length (filter (λ e, is_api_signal e = true) tr).

(** The response keys that the pass has requests for. *)
Definition recognised (ctx : fetch_ctx) (entry : string * result) : Prop :=
  is_Some (fc_keyIndexesMap ctx !! entry.1).

(** Every recorded index names a request of the queue. *)
Definition ctx_wf (ctx : fetch_ctx) : Prop :=
  ∀ k idxs i, fc_keyIndexesMap ctx !! k = Some idxs → i ∈ idxs →
    ∃ r, fc_dataRequest ctx !! i = Some r ∧ key_of r = k.

(** The classifier in the words of the specification: the notification kinds
    that apply to an error payload.  Reason "authError" or
    "insufficientPermissions" gives the scopes alert, reason "forbidden" the
    permission alert, a reconnect URL the reconnect notice. *)
Definition classify (error : result) : list component :=
  match error with
  | RError _ _ (Some data) =>
    (if bool_decide (reason data = Some "authError" ∨
                     reason data = Some "insufficientPermissions")
     then [DashboardAuthScopesAlert] else []) ++
    (if bool_decide (reason data = Some "forbidden") then [DashboardPermissionAlert] else []) ++
    (if truthy (reconnectURL data) then [AuthError] else [])
  | _ => []
  end.

Definition notification_reg (c : component) : filter_reg :=
  FilterReg "googlesitekit.ErrorNotification" "googlesitekit.AuthNotification"
            (fillFilterWithComponent c) 1.

Definition count_reg (n : Z) : filter_reg :=
  FilterReg "googlesitekit.TotalNotifications" "googlesitekit.AuthCountIncrease"
            (AuthCountIncrease n) 10.

(** The registrations one classification makes. *)
Definition registrations (error : result) : list filter_reg :=
  (notification_reg <$> classify error) ++
  match classify error with
  | [] => []
  | kinds => [count_reg (Z.of_nat (length kinds))]
  end.

(** How often the notification [c] is registered in a filter store. *)
Definition registered (c : component) (fs : list filter_reg) : nat :=
  length (filter (λ r, r = notification_reg c) fs).

Definition add_events (evs : list event) (s : state) : state :=
  {| cache := cache s; now := now s; dateRangeSlug := dateRangeSlug s;
     maxRequests := maxRequests s; filters := filters s;
     trace := trace s ++ evs; tasks := tasks s |}.

(** Events other than network calls. *)
Definition quiet (evs : list event) : Prop :=
  Forall (λ e, match e with ApiFetch _ _ => False | _ => True end) evs.

(** What handling a response may change: the trace grows, without a network
    call, the filter store may grow, and cache entries may be written under
    the given keys only. *)
Definition response_frame (keys : list string) (s s' : state) : Prop :=
  now s' = now s ∧ dateRangeSlug s' = dateRangeSlug s ∧
  maxRequests s' = maxRequests s ∧ tasks s' = tasks s ∧
  trace s `prefix_of` trace s' ∧ fetches s' = fetches s ∧
  ∀ k, k ∉ keys → cache s' !! k = cache s !! k.

(** ** Fixtures for the examples *)

(** A cache key serialisation to run examples with: the three names and the
    date range of the request. *)
Definition exampleKey (ty ident dp : string) (d : gmap string value) : string :=
  ty +:+ "::" +:+ ident +:+ "::" +:+ dp +:+ "::" +:+
  match d !! "dateRange" with
  | Some (VString slug) => slug
  | _ => ""
  end.

Definition example_platform : Platform :=
  {| getCacheKey := exampleKey; datacacheParam := false |}.

(** A request of the analytics module for datapoint [dp], with callback
    number [cb]. *)
Definition example_request (dp : string) (prio : option Z) (cb : nat) (throwing : bool)
  : request :=
  Request "modules" "analytics" dp None 3600 prio (Some (Callback cb throwing)) None.

Definition example_state : state := initial_state "last-28-days" 1000.

Definition forbidden_error : result :=
  RError "forbidden" "no access" (Some (ErrorData 403 (Some "forbidden") None)).

(** An example request as the scheduler queues it. *)
Definition example_keyed (r : request) : request :=
  @keyed example_platform "last-28-days" r.

(** ** Rounds *)

Definition is_round_timer (t : task) : bool :=
  match t with
  | CombinedGetTimer _ _ _ => true
  | _ => false
  end.

(** A recursive call of [combinedGet] is waiting for its timer. *)
Definition pending_round (s : state) : bool := existsb is_round_timer (tasks s).

(** A pending network call whose recorded indexes are in range. *)
Definition wf_fetch (t : task) : Prop := ∃ ctx, t = PendingFetch ctx ∧ ctx_wf ctx.

(** A backend that answers only the keys it was asked for. *)
Definition answers_requested (srv : server) : Prop :=
  ∀ reqs results, srv reqs = Some results → results.*1 ⊆ key_of <$> reqs.

(** A request with a priority below 10. *)
Definition high_priority (r : request) : Prop := ∃ x, priority r = Some x ∧ x < 10.

(** The state between the first and the second round: the timer of the
    second round waits, the other tasks are network calls for other keys,
    one network call was made, and the keys of the second round are not in
    the cache. *)
Definition waiting_round (slug : string) (c1 c2 : list request) (w : state) : Prop :=
  ∃ rest,
    tasks w = CombinedGetTimer 50 c2 true :: rest ∧
    Forall (λ t, ∃ ctx, t = PendingFetch ctx ∧ ctx_wf ctx ∧
                 ∀ k, k ∈ key_of <$> fc_currentRequest ctx → k ∉ key_of <$> c2) rest ∧
    fetches w = [c1] ∧ dateRangeSlug w = slug ∧
    ∀ k, k ∈ key_of <$> c2 → cache w !! k = None.

(** The state after the second round was started. *)
Definition rounds_done (c1 c2 : list request) (w : state) : Prop :=
  Forall wf_fetch (tasks w) ∧ fetches w = [c1; c2].

(** A backend that answers every request it is sent with a payload. *)
Definition example_server : server :=
  λ reqs, Some ((λ r, (key_of r, RData "ok")) <$> reqs).

(** Fifteen requests for fifteen datapoints, all of priority 1. *)
Definition fifteen_requests : list request :=
  (λ dp, example_request dp (Some 1) 0 false) <$>
  ["d01"; "d02"; "d03"; "d04"; "d05"; "d06"; "d07"; "d08"; "d09"; "d10";
   "d11"; "d12"; "d13"; "d14"; "d15"].
(** * Properties *)

(** ** The normaliser *)

Example replace_first_slug : replace_first "last" "prev" "last-28-days" = "prev-28-days".
Proof. reflexivity. Qed.

Example replace_first_inner : replace_first "last" "prev" "the-last-last" = "the-prev-last".
Proof. reflexivity. Qed.

Example replace_first_none : replace_first "last" "prev" "today" = "today".
Proof. reflexivity. Qed.

Lemma substring_all (s : string) : String.substring 0 (String.length s) s = s.
Proof. induction s as [|c s IH]; simpl; [done | by rewrite IH]. Qed.

Lemma replace_first_last_prefix (rest : string) :
  replace_first "last" "prev" ("last" +:+ rest) = "prev" +:+ rest.
Proof.
  change ("last" +:+ rest) with (String "l" (String "a" (String "s" (String "t" rest)))).
  change ("prev" +:+ rest) with (String "p" (String "r" (String "e" (String "v" rest)))).
  simpl. replace (String.prefix "" rest) with true by (by destruct rest).
  by rewrite Nat.sub_0_r, substring_all.
Qed.

Lemma requestWithDateRange_data (r : request) (slug : string) :
  ∃ d', data (requestWithDateRange r slug) = Some d'.
Proof. unfold requestWithDateRange. case_decide; eexists; reflexivity. Qed.

Lemma requestWithDateRange_fields (r : request) (slug : string) :
  let r' := requestWithDateRange r slug in
  type r' = type r ∧ identifier r' = identifier r ∧ datapoint r' = datapoint r ∧
  maxAge r' = maxAge r ∧ priority r' = priority r ∧ callback r' = callback r ∧
  key r' = key r.
Proof. unfold requestWithDateRange. case_decide; simpl; tauto. Qed.

(** C9.  The normaliser sets [data.dateRange] to the current slug exactly
    when the caller's [data] has no [dateRange]; a [dateRange] the caller
    supplied is kept.  When the caller's [dateRange] is the placeholder, it
    becomes the current slug with its first 'last' (its prefix, for a slug
    that starts with 'last') replaced by 'prev', and that is all the
    function does in this branch: the normalised [data] is the caller's
    with that one member replaced.  No other member of [data] and no other
    property of the request changes in either branch. *)
Theorem requestWithDateRange_dateRange (r : request) (slug : string) :
  let d := default ∅ (data r) in
  let r' := requestWithDateRange r slug in
  let d' := default ∅ (data r') in
  data r' = Some d' ∧
  (d !! "dateRange" = None → d' !! "dateRange" = Some (VString slug)) ∧
  (∀ v, d !! "dateRange" = Some v → v ≠ VString placeholder → d' !! "dateRange" = Some v) ∧
  (d !! "dateRange" = Some (VString placeholder) →
     d' = <["dateRange" := VString (replace_first "last" "prev" slug)]> d ∧
     ∀ rest, slug = "last" +:+ rest → d' !! "dateRange" = Some (VString ("prev" +:+ rest))) ∧
  (∀ k, k ≠ "dateRange" → d' !! k = d !! k) ∧
  set_data r' d = set_data r d.
Proof.
  intros d r' d'. subst r' d'. unfold requestWithDateRange. fold d.
  case_decide as Hp; simpl.
  - split; [done|]. split; [intros Hn; by rewrite Hn in Hp|].
    split; [intros v Hv Hne; rewrite Hv in Hp; by simplify_eq|].
    split.
    + intros _. split; [done|]. intros rest ->.
      by rewrite lookup_insert_eq, replace_first_last_prefix.
    + split; [|done]. intros k Hk. by rewrite lookup_insert_ne.
  - split; [done|]. split.
    { intros Hn. rewrite lookup_union_r by done. apply lookup_singleton_eq. }
    split.
    { intros v Hv _. by apply lookup_union_Some_l. }
    split; [done|]. split; [|done].
    intros k Hk. rewrite lookup_union, lookup_singleton_ne by done.
    by destruct (d !! k).
Qed.

Lemma requestWithDateRange_dateRange_witness :
  let r := Request "modules" "adsense" "earnings"
                   (Some {["dateRange" := VString placeholder; "metric" := VNumber 2]})
                   3600 (Some 1) None None in
  default ∅ (data (requestWithDateRange r "last-28-days")) !! "dateRange"
    = Some (VString "prev-28-days") ∧
  default ∅ (data (requestWithDateRange r "last-28-days")) !! "metric"
    = Some (VNumber 2).
Proof.
  intros r.
  destruct (requestWithDateRange_dateRange r "last-28-days")
    as (_ & _ & _ & Hp & Hk & _).
  split.
  - apply (proj2 (Hp ltac:(vm_compute; reflexivity)) "-28-days"). reflexivity.
  - rewrite Hk by done. vm_compute. reflexivity.
Defined.

Lemma alloc_spec (h : Heap.heap) (o : Heap.object) :
  h !! (Heap.alloc h o).1 = None ∧ (Heap.alloc h o).2 = <[(Heap.alloc h o).1 := o]> h.
Proof.
  unfold Heap.alloc; simpl. split; [|done].
  apply not_elem_of_dom, is_fresh.
Qed.

Lemma set_property_frame (h : Heap.heap) (l l0 : Heap.loc) (name : string) (v : Heap.jsval) :
  l0 ≠ l → Heap.set_property h l name v !! l0 = h !! l0.
Proof.
  intros Hne. unfold Heap.set_property.
  destruct (h !! l); [by rewrite lookup_insert_ne|done].
Qed.

Lemma set_property_lookup (h : Heap.heap) (l : Heap.loc) (o : Heap.object) (name : string)
    (v : Heap.jsval) :
  h !! l = Some o → Heap.set_property h l name v !! l = Some (<[name := v]> o).
Proof. intros Hl. unfold Heap.set_property. rewrite Hl. apply lookup_insert_eq. Qed.

(** C10.  Normalising never changes an object of the caller: on a request
    object whose [data] member is absent or an object, the normaliser
    returns a request object at a location that was not in use, whose
    [data] member is an object at a location that was not in use either,
    and every object that existed before the call (the caller's request and
    its [data] among them) is the same afterwards, also once the cache key
    has been attached to the copy. *)
Theorem requestWithDateRange_fresh (h : Heap.heap) (originalRequest : Heap.loc)
    (orig : Heap.object) (slug k : string) :
  h !! originalRequest = Some orig →
  (orig !! "data" = None ∨
   ∃ l_data d, orig !! "data" = Some (Heap.JRef l_data) ∧ h !! l_data = Some d) →
  ∃ l h' o' l_data',
    Heap.requestWithDateRange h originalRequest slug = Some (l, h') ∧
    h !! l = None ∧ h' !! l = Some o' ∧
    o' !! "data" = Some (Heap.JRef l_data') ∧
    h !! l_data' = None ∧ is_Some (h' !! l_data') ∧
    (∀ l0 o0, h !! l0 = Some o0 → h' !! l0 = Some o0) ∧
    (∀ l0 o0, h !! l0 = Some o0 → Heap.attach_key h' l k !! l0 = Some o0).
Proof.
  intros Horig Hdata. unfold Heap.requestWithDateRange. rewrite Horig.
  destruct (alloc_spec h ∅) as [Hf1 Hh1].
  destruct (Heap.alloc h ∅) as [l_empty h1] eqn:Ha1. simpl in Hf1, Hh1.
  set (request_obj := orig ∪ {["data" := Heap.JRef l_empty]}).
  destruct (alloc_spec h1 request_obj) as [Hf2 Hh2].
  destruct (Heap.alloc h1 request_obj) as [l_request h2] eqn:Ha2. simpl in Hf2, Hh2.
  assert (Hframe1 : ∀ l0 o0, h !! l0 = Some o0 → h1 !! l0 = Some o0).
  { intros l0 o0 H0. subst h1. rewrite lookup_insert_ne; [done|congruence]. }
  assert (Hframe2 : ∀ l0 o0, h1 !! l0 = Some o0 → h2 !! l0 = Some o0).
  { intros l0 o0 H0. subst h2. rewrite lookup_insert_ne; [done|congruence]. }
  assert (Hnew2 : h !! l_request = None).
  { destruct (h !! l_request) eqn:E; [|done]. apply Hframe1 in E. congruence. }
  assert (∃ l_data d, request_obj !! "data" = Some (Heap.JRef l_data) ∧ h2 !! l_data = Some d)
    as (l_data & d & Hrd & Hd).
  { destruct Hdata as [Hn | (l_data & d & Hs & Hd)].
    - exists l_empty, ∅. unfold request_obj. rewrite lookup_union_r by done.
      rewrite lookup_singleton_eq. split; [done|]. apply Hframe2. subst h1.
      apply lookup_insert_eq.
    - exists l_data, d. unfold request_obj. split; [by apply lookup_union_Some_l|].
      by apply Hframe2, Hframe1. }
  rewrite Hrd, Hd.
  assert (Hgoal : ∀ d_new,
    let '(l_new, h3) := Heap.alloc h2 d_new in
    ∃ l h' o' l_data',
      Some (l_request, Heap.set_property h3 l_request "data" (Heap.JRef l_new)) = Some (l, h') ∧
      h !! l = None ∧ h' !! l = Some o' ∧
      o' !! "data" = Some (Heap.JRef l_data') ∧
      h !! l_data' = None ∧ is_Some (h' !! l_data') ∧
      (∀ l0 o0, h !! l0 = Some o0 → h' !! l0 = Some o0) ∧
      (∀ l0 o0, h !! l0 = Some o0 → Heap.attach_key h' l k !! l0 = Some o0)).
  { intros d_new.
    destruct (alloc_spec h2 d_new) as [Hf3 Hh3].
    destruct (Heap.alloc h2 d_new) as [l_new h3] eqn:Ha3. simpl in Hf3, Hh3.
    assert (Hreq2 : h2 !! l_request = Some request_obj).
    { subst h2. apply lookup_insert_eq. }
    assert (Hne : l_new ≠ l_request) by congruence.
    assert (Hreq3 : h3 !! l_request = Some request_obj).
    { subst h3. by rewrite lookup_insert_ne. }
    assert (Hframe3 : ∀ l0 o0, h !! l0 = Some o0 → h3 !! l0 = Some o0).
    { intros l0 o0 H0. apply Hframe1, Hframe2 in H0. rewrite Hh3.
      rewrite lookup_insert_ne; [done|congruence]. }
    assert (Hnew3 : h !! l_new = None).
    { destruct (h !! l_new) eqn:E; [|done]. apply Hframe1, Hframe2 in E. congruence. }
    eexists l_request, _, _, l_new. split; [done|]. split; [done|].
    split; [by apply set_property_lookup|].
    split; [apply lookup_insert_eq|]. split; [done|]. split.
    { rewrite set_property_frame by done. rewrite Hh3, lookup_insert_eq. by eexists. }
    assert (Hframe4 : ∀ l0 o0, h !! l0 = Some o0 →
      Heap.set_property h3 l_request "data" (Heap.JRef l_new) !! l0 = Some o0).
    { intros l0 o0 H0. rewrite set_property_frame by congruence. by apply Hframe3. }
    split; [done|].
    intros l0 o0 H0. unfold Heap.attach_key.
    rewrite set_property_frame by congruence. by apply Hframe4. }
  case_decide.
  - apply Hgoal.
  - apply Hgoal.
Qed.

Lemma requestWithDateRange_fresh_witness :
  let data_obj : Heap.object := {["dateRange" := Heap.JPrim (VString placeholder)]} in
  let request_obj : Heap.object :=
    {["datapoint" := Heap.JPrim (VString "earnings"); "data" := Heap.JRef 2%positive]} in
  let h : Heap.heap := {[1%positive := request_obj; 2%positive := data_obj]} in
  ∃ l h',
    Heap.requestWithDateRange h 1%positive "last-28-days" = Some (l, h') ∧
    h' !! 1%positive = Some request_obj ∧ h' !! 2%positive = Some data_obj ∧
    Heap.attach_key h' l "k" !! 1%positive = Some request_obj ∧
    Heap.data_at h' l = Some {["dateRange" := VString "prev-28-days"]}.
Proof.
  intros data_obj request_obj h.
  destruct (requestWithDateRange_fresh h 1%positive request_obj "last-28-days" "k")
    as (l & h' & o' & l_data' & Heq & _ & _ & _ & _ & _ & Hframe & Hkey).
  - vm_compute. reflexivity.
  - right. exists 2%positive, data_obj. split; vm_compute; reflexivity.
  - exists l, h'. split; [exact Heq|].
    split; [apply Hframe; vm_compute; reflexivity|].
    split; [apply Hframe; vm_compute; reflexivity|].
    split; [apply Hkey; vm_compute; reflexivity|].
    vm_compute in Heq. injection Heq as <- <-. vm_compute. reflexivity.
Defined.

Lemma view_data_lookup (d : Heap.object) (k : string) :
  Heap.view_data d !! k =
  match d !! k with Some (Heap.JPrim p) => Some p | _ => None end.
Proof.
  unfold Heap.view_data. rewrite lookup_omap.
  by destruct (d !! k) as [[]|].
Qed.

(** The normaliser on records computes the [data] that the normaliser on the
    store builds, for [data] objects that hold JSON scalars. *)
Lemma requestWithDateRange_refines (h : Heap.heap) (originalRequest : Heap.loc)
    (orig : Heap.object) (slug : string) (r : request) :
  h !! originalRequest = Some orig →
  (orig !! "data" = None ∨
   ∃ l_data d, orig !! "data" = Some (Heap.JRef l_data) ∧ h !! l_data = Some d ∧
               Heap.scalar_object d) →
  data r = Heap.data_at h originalRequest →
  ∃ l h', Heap.requestWithDateRange h originalRequest slug = Some (l, h') ∧
          Heap.data_at h' l = data (requestWithDateRange r slug).
Proof.
  intros Horig Hdata Hr.
  unfold Heap.requestWithDateRange, Heap.data_at in *. rewrite Horig in *.
  destruct (alloc_spec h ∅) as [Hf1 Hh1].
  destruct (Heap.alloc h ∅) as [l_empty h1] eqn:Ha1. simpl in Hf1, Hh1.
  set (request_obj := orig ∪ {["data" := Heap.JRef l_empty]}).
  destruct (alloc_spec h1 request_obj) as [Hf2 Hh2].
  destruct (Heap.alloc h1 request_obj) as [l_request h2] eqn:Ha2. simpl in Hf2, Hh2.
  assert (Hne12 : l_request ≠ l_empty).
  { intros ->. by rewrite Hh1, lookup_insert_eq in Hf2. }
  assert (Hframe : ∀ l0 o0, h !! l0 = Some o0 → h2 !! l0 = Some o0).
  { intros l0 o0 H0. rewrite Hh2, lookup_insert_ne.
    - rewrite Hh1, lookup_insert_ne; [done|congruence].
    - intros ->. rewrite Hh1, lookup_insert_ne in Hf2; congruence. }
  assert (∃ l_data d, request_obj !! "data" = Some (Heap.JRef l_data) ∧
            h2 !! l_data = Some d ∧ Heap.scalar_object d ∧
            default ∅ (data r) = Heap.view_data d)
    as (l_data & d & Hrd & Hd & Hsc & Hview).
  { destruct Hdata as [Hn | (l_data & d & Hs & Hd & Hsc)].
    - exists l_empty, ∅. unfold request_obj. rewrite lookup_union_r by done.
      rewrite lookup_singleton_eq. split; [done|]. split.
      { rewrite Hh2, lookup_insert_ne by done. rewrite Hh1. apply lookup_insert_eq. }
      split; [by intros k v ?|]. rewrite Hr, Hn. done.
    - exists l_data, d. unfold request_obj. split; [by apply lookup_union_Some_l|].
      split; [by apply Hframe|].
      split; [done|]. rewrite Hr, Hs, Hd. done. }
  rewrite Hrd, Hd.
  assert (Hgoal : ∀ d_new : Heap.object,
    let '(l_new, h3) := Heap.alloc h2 d_new in
    ∃ l h', Some (l_request, Heap.set_property h3 l_request "data" (Heap.JRef l_new)) = Some (l, h') ∧
      match h' !! l with
      | Some o => match o !! "data" with
                  | Some (Heap.JRef l_data0) => Heap.view_data <$> h' !! l_data0
                  | _ => None
                  end
      | None => None
      end = Some (Heap.view_data d_new)).
  { intros d_new.
    destruct (alloc_spec h2 d_new) as [Hf3 Hh3].
    destruct (Heap.alloc h2 d_new) as [l_new h3] eqn:Ha3. simpl in Hf3, Hh3.
    assert (Hne : l_new ≠ l_request).
    { intros ->. rewrite Hh2, lookup_insert_eq in Hf3. done. }
    assert (Hreq3 : h3 !! l_request = Some request_obj).
    { rewrite Hh3, lookup_insert_ne by done. rewrite Hh2. apply lookup_insert_eq. }
    eexists _, _. split; [done|].
    erewrite set_property_lookup by done. rewrite lookup_insert_eq.
    rewrite set_property_frame by done. rewrite Hh3, lookup_insert_eq. done. }
  unfold requestWithDateRange. rewrite Hview.
  assert (Hdec : d !! "dateRange" = Some (Heap.JPrim (VString placeholder)) ↔
                 Heap.view_data d !! "dateRange" = Some (VString placeholder)).
  { rewrite view_data_lookup. destruct (d !! "dateRange") as [[]|]; naive_solver. }
  case_decide as Hp.
  - rewrite decide_True by (by apply Hdec).
    specialize (Hgoal (<["dateRange" := Heap.JPrim (VString (replace_first "last" "prev" slug))]> d)).
    destruct (Heap.alloc h2 _) as [l_new h3].
    destruct Hgoal as (l & h' & Heq & Hv). exists l, h'. split; [done|].
    rewrite Hv. simpl. f_equal. unfold Heap.view_data. by apply omap_insert_Some.
  - rewrite decide_False by (by rewrite <- Hdec).
    specialize (Hgoal (d ∪ {["dateRange" := Heap.JPrim (VString slug)]})).
    destruct (Heap.alloc h2 _) as [l_new h3].
    destruct Hgoal as (l & h' & Heq & Hv). exists l, h'. split; [done|].
    rewrite Hv. simpl. f_equal. apply map_eq. intros k.
    rewrite view_data_lookup, !lookup_union, view_data_lookup.
    destruct (d !! k) as [v|] eqn:Hk.
    + destruct (Hsc k v Hk) as [p ->]. simpl.
      by destruct ({["dateRange" := Heap.JPrim (VString slug)]} !! k) as [[]|];
         destruct (({["dateRange" := VString slug]} : gmap string value) !! k).
    + simpl. destruct (decide (k = "dateRange")) as [->|Hne].
      * by rewrite !lookup_singleton_eq.
      * by rewrite !lookup_singleton_ne.
Qed.

(** ** Sorting by priority *)

Lemma priority_le_total (a b : option Z) : priority_le a b = true ∨ priority_le b a = true.
Proof.
  destruct a as [x|], b as [y|]; simpl; auto.
  destruct (decide (x ≤ y)).
  - left. by apply bool_decide_eq_true.
  - right. apply bool_decide_eq_true. lia.
Qed.

Lemma priority_le_trans (a b c : option Z) :
  priority_le a b = true → priority_le b c = true → priority_le a c = true.
Proof.
  destruct a as [x|], b as [y|], c as [z|]; simpl; try done.
  rewrite !bool_decide_eq_true. lia.
Qed.

#[local] Instance priority_rel_trans : Transitive priority_rel.
Proof. intros a b c. apply priority_le_trans. Qed.

Lemma insert_by_priority_perm (x : request) (l : list request) :
  insert_by_priority x l ≡ₚ x :: l.
Proof.
  induction l as [|y l IH]; simpl; [done|].
  destruct (priority_le _ _); [done|]. rewrite IH. apply Permutation_swap.
Qed.

Lemma sortBy_priority_perm (l : list request) : sortBy_priority l ≡ₚ l.
Proof.
  induction l as [|x l IH]; simpl; [done|].
  by rewrite insert_by_priority_perm, IH.
Qed.

Lemma insert_by_priority_sorted (x : request) (l : list request) :
  StronglySorted priority_rel l → StronglySorted priority_rel (insert_by_priority x l).
Proof.
  induction l as [|y l IH]; simpl; intros Hs.
  - repeat constructor.
  - apply StronglySorted_cons in Hs as [Hy Hs].
    destruct (priority_le (priority x) (priority y)) eqn:Hxy.
    + apply StronglySorted_cons. split.
      * constructor; [done|].
        eapply Forall_impl; [exact Hy|]. intros z Hz. by etransitivity.
      * by apply StronglySorted_cons.
    + apply StronglySorted_cons. split; [|by apply IH].
      rewrite insert_by_priority_perm. constructor; [|done].
      destruct (priority_le_total (priority x) (priority y)); [congruence|done].
Qed.

Lemma sortBy_priority_sorted (l : list request) :
  StronglySorted priority_rel (sortBy_priority l).
Proof.
  induction l as [|x l IH]; simpl; [constructor|].
  by apply insert_by_priority_sorted.
Qed.

(** A queue that is in order already is left as it is. *)
Lemma sortBy_priority_id (l : list request) :
  StronglySorted priority_rel l → sortBy_priority l = l.
Proof.
  induction l as [|x l IH]; simpl; [done|].
  intros [Hx Hs]%StronglySorted_cons. rewrite IH by done.
  destruct l as [|y l]; simpl; [done|].
  apply Forall_cons in Hx as [Hxy _]. unfold priority_rel in Hxy. by rewrite Hxy.
Qed.

(** The sort is stable: the requests of one priority keep their order. *)
Lemma insert_by_priority_stable (p : option Z) (x : request) (l : list request) :
  filter (λ r, priority r = p) (insert_by_priority x l) =
  filter (λ r, priority r = p) (x :: l).
Proof.
  induction l as [|y l IH]; simpl; [done|].
  destruct (priority_le (priority x) (priority y)) eqn:Hxy; [done|].
  rewrite filter_cons, IH, !filter_cons.
  destruct (decide (priority y = p)) as [Hy|]; [|done].
  destruct (decide (priority x = p)) as [Hx|]; [|done].
  rewrite Hx, Hy in Hxy. destruct p; simpl in Hxy; [|done].
  apply bool_decide_eq_false in Hxy. lia.
Qed.

Lemma sortBy_priority_stable (p : option Z) (l : list request) :
  filter (λ r, priority r = p) (sortBy_priority l) = filter (λ r, priority r = p) l.
Proof.
  induction l as [|x l IH]; simpl; [done|].
  by rewrite insert_by_priority_stable, !filter_cons, IH.
Qed.

(** ** The loop that requests each key once *)

Section Distribute.
Context (defer : request → bool).

Lemma distribute_deferredRequests (l : list request) (index : nat) (b : buckets) :
  deferredRequests (distribute defer l index b) =
  deferredRequests b ++ filter (λ r, defer r = true) l.
Proof.
  revert index b. induction l as [|r l IH]; intros index b; simpl.
  - by rewrite app_nil_r.
  - rewrite IH, filter_cons. destruct (defer r) eqn:Hd.
    + rewrite decide_True by done. simpl. by rewrite <- app_assoc.
    + rewrite decide_False by done. by destruct (keyIndexesMap b !! key_of r).
Qed.

Lemma distribute_toRequest (l : list request) (index : nat) (b : buckets) :
  toRequest (distribute defer l index b) =
  toRequest b ++ first_occurrences defer (dom (keyIndexesMap b)) l.
Proof.
  revert index b. induction l as [|r l IH]; intros index b; simpl.
  - by rewrite app_nil_r.
  - rewrite IH. destruct (defer r) eqn:Hd; simpl; [done|].
    destruct (keyIndexesMap b !! key_of r) as [idxs|] eqn:Hk; simpl.
    + rewrite decide_True by (by eapply elem_of_dom_2).
      rewrite dom_insert_L.
      replace ({[key_of r]} ∪ dom (keyIndexesMap b)) with (dom (keyIndexesMap b)); [done|].
      apply elem_of_dom_2 in Hk. clear -Hk. set_solver.
    + rewrite decide_False by (by apply not_elem_of_dom).
      by rewrite dom_insert_L, <- app_assoc.
Qed.

Lemma distribute_keyIndexesMap (l : list request) (index : nat) (b : buckets) (k : string) :
  (∀ k' idxs, keyIndexesMap b !! k' = Some idxs → idxs ≠ []) →
  keyIndexesMap (distribute defer l index b) !! k =
  extend_indexes (keyIndexesMap b !! k) (key_indexes defer k l index).
Proof.
  revert index b. induction l as [|r l IH]; intros index b Hne; simpl.
  - destruct (keyIndexesMap b !! k) as [idxs|]; simpl; [by rewrite app_nil_r|done].
  - destruct (defer r) eqn:Hd; simpl.
    { by rewrite IH. }
    destruct (keyIndexesMap b !! key_of r) as [idxs|] eqn:Hk.
    + rewrite IH; simpl.
      * destruct (decide (key_of r = k)) as [<-|Hkk].
        -- rewrite bool_decide_eq_true_2 by done. rewrite lookup_insert_eq, Hk. simpl.
           by rewrite <- app_assoc.
        -- rewrite bool_decide_eq_false_2 by done. by rewrite lookup_insert_ne.
      * intros k' idxs' Hl. destruct (decide (key_of r = k')) as [<-|Hkk].
        -- rewrite lookup_insert_eq in Hl. injection Hl as <-. by destruct idxs.
        -- rewrite lookup_insert_ne in Hl by done. eauto.
    + rewrite IH; simpl.
      * destruct (decide (key_of r = k)) as [<-|Hkk].
        -- rewrite bool_decide_eq_true_2 by done. rewrite lookup_insert_eq, Hk. done.
        -- rewrite bool_decide_eq_false_2 by done. by rewrite lookup_insert_ne.
      * intros k' idxs' Hl. destruct (decide (key_of r = k')) as [<-|Hkk].
        -- rewrite lookup_insert_eq in Hl. by injection Hl as <-.
        -- rewrite lookup_insert_ne in Hl by done. eauto.
Qed.

Lemma elem_of_key_indexes (k : string) (l : list request) (index i : nat) :
  i ∈ key_indexes defer k l index ↔
  ∃ r, (index ≤ i)%nat ∧ l !! (i - index)%nat = Some r ∧ defer r = false ∧ key_of r = k.
Proof.
  revert index. induction l as [|r l IH]; intros index; simpl.
  - split; [by intros ?%elem_of_nil|]. by intros (r & _ & ? & _).
  - assert (Hrest : i ∈ key_indexes defer k l (S index) ↔
      ∃ r', (index < i)%nat ∧ l !! (i - S index)%nat = Some r' ∧
            defer r' = false ∧ key_of r' = k).
    { rewrite IH. naive_solver lia. }
    assert (Hhere : (∃ r', (index ≤ i)%nat ∧ (r :: l) !! (i - index)%nat = Some r' ∧
                     defer r' = false ∧ key_of r' = k) ↔
      (i = index ∧ defer r = false ∧ key_of r = k) ∨
      (∃ r', (index < i)%nat ∧ l !! (i - S index)%nat = Some r' ∧
            defer r' = false ∧ key_of r' = k)).
    { split.
      - intros (r' & Hle & Hl & Hd & Hk).
        destruct (decide (i = index)) as [->|Hne].
        + rewrite Nat.sub_diag in Hl. simpl in Hl. left. naive_solver.
        + right. exists r'. replace (i - index)%nat with (S (i - S index)) in Hl by lia.
          simpl in Hl. split; [lia|done].
      - intros [(-> & Hd & Hk) | (r' & Hlt & Hl & Hd & Hk)].
        + exists r. rewrite Nat.sub_diag. done.
        + exists r'. replace (i - index)%nat with (S (i - S index)) by lia.
          split; [lia|done]. }
    rewrite Hhere, <- Hrest.
    destruct (defer r) eqn:Hd; simpl.
    + naive_solver.
    + case_bool_decide as Hk.
      * rewrite elem_of_cons. naive_solver.
      * naive_solver.
Qed.

Lemma key_indexes_sorted (k : string) (l : list request) (index : nat) :
  StronglySorted lt (key_indexes defer k l index) ∧
  Forall (λ i, (index ≤ i)%nat) (key_indexes defer k l index).
Proof.
  revert index. induction l as [|r l IH]; intros index; simpl.
  - split; constructor.
  - destruct (IH (S index)) as [Hs Hf].
    assert (Hf' : Forall (λ i, (index ≤ i)%nat) (key_indexes defer k l (S index))).
    { eapply Forall_impl; [exact Hf|]. simpl. lia. }
    destruct (negb (defer r) && bool_decide (key_of r = k)); [|done].
    split.
    + constructor; [done|]. eapply Forall_impl; [exact Hf|]. simpl. lia.
    + by constructor.
Qed.

Lemma first_occurrences_not_deferred (seen : gset string) (l : list request) (r : request) :
  r ∈ first_occurrences defer seen l → r ∈ l ∧ defer r = false ∧ key_of r ∉ seen.
Proof.
  revert seen. induction l as [|x l IH]; intros seen; simpl.
  - by intros ?%elem_of_nil.
  - destruct (defer x) eqn:Hd.
    { intros Hin. apply IH in Hin. rewrite elem_of_cons. naive_solver. }
    case_decide as Hs.
    { intros Hin. apply IH in Hin. rewrite elem_of_cons. naive_solver. }
    rewrite !elem_of_cons. intros [->|Hin]; [naive_solver|].
    apply IH in Hin. set_solver.
Qed.

Lemma first_occurrences_NoDup (seen : gset string) (l : list request) :
  NoDup (key_of <$> first_occurrences defer seen l).
Proof.
  revert seen. induction l as [|x l IH]; intros seen; simpl.
  - constructor.
  - destruct (defer x); [apply IH|]. case_decide; [apply IH|].
    rewrite fmap_cons. constructor; [|apply IH].
    intros (r & Hk & Hin)%list_elem_of_fmap.
    apply first_occurrences_not_deferred in Hin as (_ & _ & Hn). set_solver.
Qed.

(** A request that is not deferred and whose key was not seen has a first
    occurrence of its key among the representatives. *)
Lemma first_occurrences_first (seen : gset string) (l : list request) (r : request) :
  r ∈ first_occurrences defer seen l →
  ∃ i, l !! i = Some r ∧
       ∀ j r', (j < i)%nat → l !! j = Some r' → defer r' = false → key_of r' ≠ key_of r.
Proof.
  revert seen. induction l as [|x l IH]; intros seen; simpl.
  - by intros ?%elem_of_nil.
  - assert (Hskip : ∀ seen', (defer x = true ∨ key_of x ∈ seen') →
      r ∈ first_occurrences defer seen' l →
      ∃ i, (x :: l) !! i = Some r ∧
       ∀ j r', (j < i)%nat → (x :: l) !! j = Some r' → defer r' = false →
               key_of r' ≠ key_of r).
    { intros seen' Hx Hin.
      pose proof (first_occurrences_not_deferred _ _ _ Hin) as (_ & _ & Hns).
      destruct (IH _ Hin) as (i & Hi & Hfirst). exists (S i). split; [done|].
      intros [|j] r' Hlt Hj Hd; simpl in Hj.
      - injection Hj as <-. destruct Hx as [Hx|Hx]; [congruence|]. intros Heq.
        rewrite Heq in Hx. done.
      - apply (Hfirst j); [lia|done|done]. }
    destruct (defer x) eqn:Hd; [apply Hskip; auto|].
    case_decide as Hs; [apply Hskip; auto|].
    rewrite elem_of_cons. intros [->|Hin].
    + exists 0%nat. split; [done|]. intros j r' Hlt. lia.
    + apply (Hskip ({[key_of x]} ∪ seen)); [right; set_solver|done].
Qed.

(** Every request that is not deferred has a representative with its key. *)
Lemma first_occurrences_covers (seen : gset string) (l : list request) (r : request) :
  r ∈ l → defer r = false → key_of r ∉ seen →
  ∃ r', r' ∈ first_occurrences defer seen l ∧ key_of r' = key_of r.
Proof.
  revert seen. induction l as [|x l IH]; intros seen; simpl.
  - by intros ?%elem_of_nil.
  - rewrite elem_of_cons. intros Hin Hd Hs.
    destruct (defer x) eqn:Hdx.
    { destruct Hin as [->|Hin]; [congruence|]. by apply IH. }
    case_decide as Hsx.
    { destruct Hin as [->|Hin]; [done|]. by apply IH. }
    destruct (decide (key_of x = key_of r)) as [Heq|Hne].
    + exists x. split; [left|done].
    + destruct Hin as [->|Hin]; [done|].
      destruct (IH ({[key_of x]} ∪ seen) Hin Hd) as (r' & Hr' & Hk); [set_solver|].
      exists r'. split; [by right|done].
Qed.

(** Requests with distinct keys, none deferred and none seen, are all
    representatives. *)
Lemma first_occurrences_all (seen : gset string) (l : list request) :
  NoDup (key_of <$> l) → Forall (λ r, defer r = false ∧ key_of r ∉ seen) l →
  first_occurrences defer seen l = l.
Proof.
  revert seen. induction l as [|x l IH]; intros seen; simpl; [done|].
  rewrite ?fmap_cons. intros [Hx Hnd]%NoDup_cons [[Hd Hs] Hall]%Forall_cons.
  rewrite Hd, decide_False by done. f_equal. apply IH; [done|].
  apply Forall_forall. intros r Hr. rewrite Forall_forall in Hall.
  destruct (Hall r Hr) as [Hdr Hsr]. split; [done|].
  intros [Heq%elem_of_singleton|?]%elem_of_union; [|done].
  apply Hx. rewrite <- Heq. by apply list_elem_of_fmap_2.
Qed.

End Distribute.

(** ** The plan of one pass *)

Lemma priority_lt_10_spec (r : request) :
  priority_lt_10 r = true ↔ ∃ x, priority r = Some x ∧ x < 10.
Proof.
  unfold priority_lt_10. destruct (priority r) as [x|].
  - rewrite bool_decide_eq_true. naive_solver.
  - naive_solver.
Qed.

Lemma priority_ge_10_spec (r : request) :
  priority_ge_10 r = true ↔ ∃ x, priority r = Some x ∧ 10 ≤ x.
Proof.
  unfold priority_ge_10. destruct (priority r) as [x|].
  - rewrite bool_decide_eq_true. naive_solver.
  - naive_solver.
Qed.

Section Plan.
Context `{Platform}.

Section OnePass.
Context (s : state) (combinedRequest : list request) (secondaryRequest : bool).

Local Abbreviation p := (make_plan s combinedRequest secondaryRequest).
Local Abbreviation defer := (defer_test secondaryRequest (noLowPriorityRequests p)).

Lemma plan_dataRequest :
  dataRequest p = sortBy_priority (splitCached s combinedRequest 25).2.
Proof.
  unfold make_plan. by destruct (splitCached s combinedRequest 25).
Qed.

Lemma plan_cacheTimers : cacheTimers p = (splitCached s combinedRequest 25).1.
Proof.
  unfold make_plan. by destruct (splitCached s combinedRequest 25).
Qed.

Lemma plan_noLow : noLowPriorityRequests p = existsb priority_lt_10 (dataRequest p).
Proof.
  unfold make_plan. by destruct (splitCached s combinedRequest 25).
Qed.

Lemma plan_sorted :
  sorted p = distribute defer (dataRequest p) 0 (Buckets [] [] ∅).
Proof.
  unfold make_plan. by destruct (splitCached s combinedRequest 25).
Qed.

Lemma plan_currentRequest :
  currentRequest p = take maxDatapointsPerRequest (toRequest (sorted p)).
Proof.
  unfold make_plan. by destruct (splitCached s combinedRequest 25).
Qed.

Lemma plan_remainingDatapoints :
  remainingDatapoints p =
  drop maxDatapointsPerRequest (toRequest (sorted p)) ++ deferredRequests (sorted p).
Proof.
  unfold make_plan. by destruct (splitCached s combinedRequest 25).
Qed.

Lemma plan_toRequest : toRequest (sorted p) = first_occurrences defer ∅ (dataRequest p).
Proof. rewrite plan_sorted, distribute_toRequest. simpl. by rewrite dom_empty_L. Qed.

Lemma plan_deferredRequests :
  deferredRequests (sorted p) = filter (λ r, defer r = true) (dataRequest p).
Proof. rewrite plan_sorted, distribute_deferredRequests. done. Qed.

Lemma plan_keyIndexesMap (k : string) :
  keyIndexesMap (sorted p) !! k =
  extend_indexes None (key_indexes defer k (dataRequest p) 0).
Proof.
  rewrite plan_sorted, distribute_keyIndexesMap; [done|].
  intros k' idxs. simpl. by rewrite lookup_empty.
Qed.

Lemma plan_keyIndexesMap_elem (k : string) (idxs : list nat) (i : nat) :
  keyIndexesMap (sorted p) !! k = Some idxs →
  (i ∈ idxs ↔ ∃ r, dataRequest p !! i = Some r ∧ defer r = false ∧ key_of r = k).
Proof.
  rewrite plan_keyIndexesMap. intros Hk.
  assert (idxs = key_indexes defer k (dataRequest p) 0) as ->.
  { destruct (key_indexes defer k (dataRequest p) 0); simpl in Hk; congruence. }
  rewrite elem_of_key_indexes, Nat.sub_0_r. naive_solver lia.
Qed.

Lemma plan_keyIndexesMap_recorded (i : nat) (r : request) :
  dataRequest p !! i = Some r → defer r = false →
  ∃ idxs, keyIndexesMap (sorted p) !! key_of r = Some idxs ∧ i ∈ idxs.
Proof.
  intros Hi Hd. rewrite plan_keyIndexesMap.
  assert (Hin : i ∈ key_indexes defer (key_of r) (dataRequest p) 0).
  { apply elem_of_key_indexes. exists r. rewrite Nat.sub_0_r. split; [lia|done]. }
  destruct (key_indexes defer (key_of r) (dataRequest p) 0) as [|j js] eqn:E.
  - by apply elem_of_nil in Hin.
  - exists (j :: js). done.
Qed.

Lemma plan_currentRequest_toRequest (r : request) :
  r ∈ currentRequest p → r ∈ toRequest (sorted p).
Proof.
  rewrite plan_currentRequest. intros Hin.
  rewrite <- (take_drop maxDatapointsPerRequest (toRequest (sorted p))).
  apply elem_of_app. by left.
Qed.

Lemma plan_currentRequest_NoDup : NoDup (key_of <$> currentRequest p).
Proof.
  rewrite plan_currentRequest, fmap_take.
  assert (Hnd : NoDup (key_of <$> toRequest (sorted p))).
  { rewrite plan_toRequest. apply first_occurrences_NoDup. }
  rewrite <- (take_drop maxDatapointsPerRequest (key_of <$> toRequest (sorted p))) in Hnd.
  by apply NoDup_app in Hnd as [? _].
Qed.

Lemma plan_currentRequest_length : (length (currentRequest p) ≤ 10)%nat.
Proof. rewrite plan_currentRequest, length_take. unfold maxDatapointsPerRequest. lia. Qed.

End OnePass.
End Plan.

(** ** Effects of the monadic building blocks *)

Ltac mred :=
  unfold bind, ret, throw, emit, schedule, set_maxRequests, set_filters, write_cache,
         modify, get_state, addFilter, removeFilter; simpl.

Lemma each_returned {A} (l : list A) (f : A → M unit) (s : state) :
  (∀ x s0, x ∈ l → (f x s0).1 = Returned tt) → (each l f s).1 = Returned tt.
Proof.
  revert s. induction l as [|x l IH]; intros s Hf; simpl; [done|].
  unfold bind. pose proof (Hf x s ltac:(left)) as Hx.
  destruct (f x s) as [[[]|e] s1]; simpl in Hx; [|done].
  apply IH. intros y s0 Hy. apply Hf. by right.
Qed.

Lemma each_preserves {A} (I : state → Prop) (l : list A) (f : A → M unit) (s : state) :
  I s → (∀ x s0, x ∈ l → I s0 → I (f x s0).2) → I (each l f s).2.
Proof.
  revert s. induction l as [|x l IH]; intros s Hs Hf; simpl; [done|].
  unfold bind. pose proof (Hf x s ltac:(left) Hs) as Hx.
  destruct (f x s) as [[[]|e] s1]; simpl in Hx; [|done].
  apply IH; [done|]. intros y s0 Hy. apply Hf. by right.
Qed.

(** When no step throws, what a step establishes and later steps keep holds
    at the end for every element. *)
Lemma each_establishes {A} (P : A → state → Prop) (l : list A) (f : A → M unit) (s : state) :
  (∀ x s0, x ∈ l → (f x s0).1 = Returned tt) →
  (∀ x s0, x ∈ l → P x (f x s0).2) →
  (∀ x y s0, y ∈ l → P x s0 → P x (f y s0).2) →
  ∀ x, x ∈ l → P x (each l f s).2.
Proof.
  revert s. induction l as [|y l IH]; intros s Hret Hest Hkeep x Hx; simpl.
  { by apply elem_of_nil in Hx. }
  unfold bind. pose proof (Hret y s ltac:(left)) as Hy.
  pose proof (Hest y s ltac:(left)) as Hy'.
  destruct (f y s) as [[[]|e] s1] eqn:E; simpl in Hy, Hy'; [|done].
  apply elem_of_cons in Hx as [->|Hx].
  - apply (each_preserves (P y)); [done|]. intros z s0 Hz. apply Hkeep. by right.
  - apply IH; [| |  |done].
    + intros z s0 Hz. apply Hret. by right.
    + intros z s0 Hz. apply Hest. by right.
    + intros z z' s0 Hz. apply Hkeep. by right.
Qed.

Lemma each_schedule (l : list task) (s : state) :
  each l schedule s =
  (Returned tt, {| cache := cache s; now := now s; dateRangeSlug := dateRangeSlug s;
                   maxRequests := maxRequests s; filters := filters s;
                   trace := trace s; tasks := tasks s ++ l |}).
Proof.
  revert s. induction l as [|t l IH]; intros s; simpl.
  - unfold ret. rewrite app_nil_r. by destruct s.
  - mred. rewrite IH. simpl. by rewrite <- app_assoc.
Qed.

(** ** The error classifier *)

Lemma handleWPError_spec (method dp ty ident : string) (error : result) (s : state) :
  handleWPError method dp ty ident error s =
  (Returned tt,
   {| cache := cache s; now := now s; dateRangeSlug := dateRangeSlug s;
      maxRequests := maxRequests s;
      filters := filters s ++ registrations error;
      trace := trace s ++ [ConsoleWarn "WP Error in data response";
                           TrackAPIError method dp ty ident error];
      tasks := tasks s |}).
Proof.
  unfold handleWPError, registrations, classify, reason_is.
  destruct error as [payload|code message [data|]]; mred;
    rewrite <- ?app_assoc, ?app_nil_r; try done.
  rewrite bool_decide_or.
  destruct (bool_decide (reason data = Some "authError")) eqn:Ha;
    destruct (bool_decide (reason data = Some "insufficientPermissions")) eqn:Hi;
    destruct (bool_decide (reason data = Some "forbidden")) eqn:Hf;
    destruct (truthy (reconnectURL data)) eqn:Hu;
    destruct (truthy (reason data)) eqn:Hr; simpl;
    rewrite <- ?app_assoc, ?app_nil_r; try done.
  all: try (apply bool_decide_eq_true in Ha; rewrite Ha in Hr; done).
  all: try (apply bool_decide_eq_true in Hi; rewrite Hi in Hr; done).
  all: try (apply bool_decide_eq_true in Hf; rewrite Hf in Hr; done).
  all: mred; rewrite <- ?app_assoc; reflexivity.
Qed.

(** ** Resolver dispatch and the handling of one response entry *)

Lemma add_events_nil (s : state) : add_events [] s = s.
Proof. unfold add_events. rewrite app_nil_r. by destruct s. Qed.

Lemma resolve_state (r : request) (res : result) (s : state) :
  (resolve r res s).2 = add_events (call_event r res) s.
Proof.
  unfold resolve, call_event. destruct (callback r) as [cb|]; mred.
  - by destruct (cb_throws cb).
  - by rewrite add_events_nil.
Qed.

Lemma resolve_returns (r : request) (res : result) (s : state) :
  throws r = false → (resolve r res s).1 = Returned tt.
Proof.
  unfold resolve, throws. destruct (callback r) as [cb|]; mred; [|done].
  by intros ->.
Qed.

Lemma resolve_throws (r : request) (res : result) (s : state) :
  throws r = true → ∃ e, (resolve r res s).1 = Threw e.
Proof.
  unfold resolve, throws. destruct (callback r) as [cb|]; mred; [|done].
  intros ->. by eexists.
Qed.

Lemma response_frame_refl (keys : list string) (s : state) : response_frame keys s s.
Proof. by repeat split. Qed.

Lemma response_frame_trans (keys : list string) (s1 s2 s3 : state) :
  response_frame keys s1 s2 → response_frame keys s2 s3 → response_frame keys s1 s3.
Proof.
  intros (?&?&?&?&?&?&Hc1) (?&?&?&?&?&?&Hc2).
  repeat split; try congruence; [by etransitivity|].
  intros k Hk. by rewrite Hc2, Hc1.
Qed.

Lemma response_frame_weaken (keys keys' : list string) (s s' : state) :
  keys ⊆ keys' → response_frame keys s s' → response_frame keys' s s'.
Proof.
  intros Hsub (?&?&?&?&?&?&Hc). repeat split; try done.
  intros k Hk. apply Hc. set_solver.
Qed.

Lemma quiet_fetches (evs : list event) (s : state) :
  quiet evs → fetches (add_events evs s) = fetches s.
Proof.
  intros Hq. unfold fetches, add_events. simpl. rewrite omap_app.
  assert (Hnil : omap (λ e, match e with ApiFetch _ l => Some l | _ => None end) evs = []).
  { induction Hq as [|e evs He _ IH]; [done|]. by destruct e. }
  by rewrite Hnil, app_nil_r.
Qed.

Lemma response_frame_events (keys : list string) (evs : list event) (s : state) :
  quiet evs → response_frame keys s (add_events evs s).
Proof.
  intros Hq. repeat split; try done.
  - simpl. by apply prefix_app_r.
  - by apply quiet_fetches.
Qed.

Lemma quiet_call_event (r : request) (res : result) : quiet (call_event r res).
Proof. unfold call_event, quiet. destruct (callback r); repeat constructor. Qed.

Lemma response_frame_resolve (keys : list string) (r : request) (res : result) (s : state) :
  response_frame keys s (resolve r res s).2.
Proof. rewrite resolve_state. apply response_frame_events, quiet_call_event. Qed.

Lemma response_frame_handleWPError (keys : list string) (m dp ty ident : string)
    (error : result) (s : state) :
  response_frame keys s (handleWPError m dp ty ident error s).2.
Proof.
  rewrite handleWPError_spec. repeat split; try done; simpl.
  - by apply prefix_app_r.
  - unfold fetches. simpl. rewrite omap_app. simpl. by rewrite app_nil_r.
Qed.

Lemma response_frame_write_cache (k : string) (res : result) (s : state) :
  response_frame [k] s (write_cache k res s).2.
Proof.
  mred. repeat split; try done. simpl. intros k' Hk'.
  unfold setCache. rewrite lookup_insert_ne; [done|]. set_solver.
Qed.

Lemma bind_frame {A B} (keys : list string) (m : M A) (f : A → M B) (s : state) :
  response_frame keys s (m s).2 →
  (∀ a s1, response_frame keys s1 (f a s1).2) →
  response_frame keys s (bind m f s).2.
Proof.
  intros Hm Hf. unfold bind. destruct (m s) as [[a|e] s1]; simpl in *; [|done].
  eapply response_frame_trans; [exact Hm|apply Hf].
Qed.

Lemma bind_returned {A B} (m : M A) (f : A → M B) (s : state) (a : A) :
  (m s).1 = Returned a → bind m f s = f a (m s).2.
Proof. unfold bind. destruct (m s) as [[a'|e] s1]; simpl; congruence. Qed.

Lemma bind_threw {A B} (m : M A) (f : A → M B) (s : state) (e : exn) :
  (m s).1 = Threw e → bind m f s = (Threw e, (m s).2).
Proof. unfold bind. destruct (m s) as [[a'|e'] s1]; simpl; congruence. Qed.

Lemma each_frame {A} (keys : list string) (l : list A) (f : A → M unit) (s : state) :
  (∀ x s0, x ∈ l → response_frame keys s0 (f x s0).2) →
  response_frame keys s (each l f s).2.
Proof.
  intros Hf. apply (each_preserves (response_frame keys s)).
  - apply response_frame_refl.
  - intros x s0 Hx Hs0. eapply response_frame_trans; [exact Hs0|by apply Hf].
Qed.

Lemma handleResult_unfold (ctx : fetch_ctx) (k : string) (res : result) :
  handleResult ctx (k, res) =
  match fc_keyIndexesMap ctx !! k with
  | None => emit (ConsoleError ("unknown response key " +:+ k))
  | Some idxs =>
    (if isWPError res then
       match lookup_by_array (fc_dataRequest ctx) idxs with
       | Some r => handleWPError "POST" (datapoint r) (type r) (identifier r) res
       | None => throw (TypeError "Cannot destructure property 'datapoint' of undefined")
       end
     else ret tt) ;;;
    each idxs (dispatch ctx (isWPError res) res) ;;;
    if bool_decide (fc_remainingDatapoints ctx = []) then emit (DataLoaded FromAPI)
    else ret tt
  end.
Proof. reflexivity. Qed.

Lemma dispatch_frame (ctx : fetch_ctx) (k : string) (idxs : list nat) (res : result)
    (i : nat) (s : state) :
  ctx_wf ctx → fc_keyIndexesMap ctx !! k = Some idxs → i ∈ idxs →
  response_frame [k] s (dispatch ctx (isWPError res) res i s).2.
Proof.
  intros Hwf Hk Hi. destruct (Hwf k idxs i Hk Hi) as (r & Hr & Hkr).
  unfold dispatch. rewrite Hr. apply bind_frame.
  - destruct (negb (isWPError res)).
    + rewrite Hkr. apply response_frame_write_cache.
    + apply response_frame_refl.
  - intros _ s1. apply response_frame_resolve.
Qed.

Lemma handleResult_frame (ctx : fetch_ctx) (entry : string * result) (s : state) :
  ctx_wf ctx → response_frame [entry.1] s (handleResult ctx entry s).2.
Proof.
  intros Hwf. destruct entry as [k res]. rewrite handleResult_unfold. simpl.
  destruct (fc_keyIndexesMap ctx !! k) as [idxs|] eqn:Hk.
  - apply bind_frame.
    { destruct (isWPError res); [|apply response_frame_refl].
      destruct (lookup_by_array _ _); [|apply response_frame_refl].
      apply response_frame_handleWPError. }
    intros _ s1. apply bind_frame.
    { apply each_frame. intros i s0 Hi. by eapply dispatch_frame. }
    intros _ s2. case_bool_decide; [|apply response_frame_refl].
    by apply (response_frame_events _ [DataLoaded FromAPI]); repeat constructor.
  - by apply (response_frame_events _ [ConsoleError _]); repeat constructor.
Qed.

Lemma onResponse_frame (ctx : fetch_ctx) (results : list (string * result)) (s : state) :
  ctx_wf ctx → response_frame results.*1 s (onResponse ctx results s).2.
Proof.
  intros Hwf. unfold onResponse, try_catch.
  assert (Hloop : response_frame results.*1 s (each results (handleResult ctx) s).2).
  { apply each_frame. intros entry s0 Hin.
    eapply response_frame_weaken; [|by apply handleResult_frame].
    intros k' ->%list_elem_of_singleton. by apply list_elem_of_fmap_2. }
  destruct (each results (handleResult ctx) s) as [[[]|e] s1]; simpl in *; [done|].
  eapply response_frame_trans; [exact Hloop|].
  by apply (response_frame_events _ [ConsoleWarn _]); repeat constructor.
Qed.

Lemma onResponse_returns (ctx : fetch_ctx) (results : list (string * result)) (s : state) :
  (onResponse ctx results s).1 = Returned tt.
Proof.
  unfold onResponse, try_catch.
  by destruct (each results (handleResult ctx) s) as [[[]|e] s1].
Qed.

Lemma frame_keeps_event (keys : list string) (s s' : state) (e : event) :
  response_frame keys s s' → e ∈ trace s → e ∈ trace s'.
Proof.
  intros (_&_&_&_&[evs ->]&_) He. apply elem_of_app. by left.
Qed.

Lemma dispatch_returns (ctx : fetch_ctx) (isError : bool) (res : result) (i : nat)
    (r : request) (s : state) :
  fc_dataRequest ctx !! i = Some r → throws r = false →
  (dispatch ctx isError res i s).1 = Returned tt.
Proof.
  intros Hr Ht. unfold dispatch. rewrite Hr.
  rewrite (bind_returned _ _ _ tt) by (by destruct (negb isError)).
  by apply resolve_returns.
Qed.

Lemma dispatch_calls (ctx : fetch_ctx) (isError : bool) (res : result) (i : nat)
    (r : request) (s : state) (e : event) :
  fc_dataRequest ctx !! i = Some r → e ∈ call_event r res →
  e ∈ trace (dispatch ctx isError res i s).2.
Proof.
  intros Hr He. unfold dispatch. rewrite Hr.
  rewrite (bind_returned _ _ _ tt) by (by destruct (negb isError)).
  rewrite resolve_state. simpl. apply elem_of_app. by right.
Qed.

(** The first request recorded for a key that is answered without an error
    gets the answer written to the cache under the key. *)
Lemma dispatch_writes (ctx : fetch_ctx) (res : result) (i : nat) (r : request) (s : state) :
  fc_dataRequest ctx !! i = Some r →
  cache (dispatch ctx false res i s).2 = setCache (now s) (cache s) (key_of r) res.
Proof.
  intros Hr. unfold dispatch. rewrite Hr. simpl.
  rewrite (bind_returned _ _ _ tt) by done. by rewrite resolve_state.
Qed.

Section OneEntry.
Context (ctx : fetch_ctx) (k : string) (res : result) (idxs : list nat).
Context (Hwf : ctx_wf ctx) (Hk : fc_keyIndexesMap ctx !! k = Some idxs).
Context (Hquiet : ∀ i r, i ∈ idxs → fc_dataRequest ctx !! i = Some r → throws r = false).
Context (Hone : isWPError res = true → ∃ i, idxs = [i]).

Lemma classifier_block_returns (s : state) :
  ((if isWPError res then
      match lookup_by_array (fc_dataRequest ctx) idxs with
      | Some r => handleWPError "POST" (datapoint r) (type r) (identifier r) res
      | None => throw (TypeError "Cannot destructure property 'datapoint' of undefined")
      end
    else ret tt) s).1 = Returned tt.
Proof.
  destruct (isWPError res) eqn:He; [|done].
  destruct (Hone eq_refl) as [i ->]. simpl.
  destruct (Hwf k [i] i Hk ltac:(left)) as (r & -> & _).
  by rewrite handleWPError_spec.
Qed.

Lemma dispatch_all_return (s : state) :
  (each idxs (dispatch ctx (isWPError res) res) s).1 = Returned tt.
Proof.
  apply each_returned. intros i s0 Hi.
  destruct (Hwf k idxs i Hk Hi) as (r & Hr & _).
  eapply dispatch_returns; eauto.
Qed.

Lemma handleResult_returns (s : state) : (handleResult ctx (k, res) s).1 = Returned tt.
Proof.
  rewrite handleResult_unfold, Hk.
  rewrite (bind_returned _ _ _ tt) by apply classifier_block_returns.
  rewrite (bind_returned _ _ _ tt) by apply dispatch_all_return.
  by case_bool_decide.
Qed.

Lemma handleResult_calls (s : state) (i : nat) (r : request) (e : event) :
  i ∈ idxs → fc_dataRequest ctx !! i = Some r → e ∈ call_event r res →
  e ∈ trace (handleResult ctx (k, res) s).2.
Proof.
  intros Hi Hr He. rewrite handleResult_unfold, Hk.
  rewrite (bind_returned _ _ _ tt) by apply classifier_block_returns.
  rewrite (bind_returned _ _ _ tt) by apply dispatch_all_return.
  match goal with |- context [each idxs ?f ?s0] => set (s1 := s0) end.
  assert (Hin : e ∈ trace (each idxs (dispatch ctx (isWPError res) res) s1).2).
  { apply (each_establishes
             (λ j s0, ∀ r', fc_dataRequest ctx !! j = Some r' →
                      ∀ e', e' ∈ call_event r' res → e' ∈ trace s0)
             idxs (dispatch ctx (isWPError res) res) s1) with (x := i) (r' := r); try done.
    - intros j s0 Hj. destruct (Hwf k idxs j Hk Hj) as (r' & Hr' & _).
      eapply dispatch_returns; eauto.
    - intros j s0 Hj r' Hr' e' He'. by eapply dispatch_calls.
    - intros j j' s0 Hj' HP r' Hr' e' He'.
      eapply frame_keeps_event; [by eapply dispatch_frame|]. by eapply HP. }
  case_bool_decide; [|done]. mred. apply elem_of_app. by left.
Qed.

End OneEntry.

(** ** Deduplication and deferral *)

Section PlanClaims.
Context `{Platform}.

Lemma plan_ctx_wf (s : state) (combinedRequest : list request) (secondaryRequest : bool) :
  ctx_wf (plan_ctx (make_plan s combinedRequest secondaryRequest)).
Proof.
  intros k idxs i Hk Hi. simpl in Hk.
  apply (plan_keyIndexesMap_elem s combinedRequest secondaryRequest k idxs i Hk) in Hi
    as (r & Hr & _ & Hkr).
  by exists r.
Qed.



End PlanClaims.



(** ** One pass of [combinedGet] *)

Section Pass.
Context `{Platform}.

Lemma combinedGet_early (s : state) (combinedRequest : list request) (secondaryRequest : bool) :
  let p := make_plan s combinedRequest secondaryRequest in
  currentRequest p = [] → remainingDatapoints p = [] →
  combinedGet combinedRequest secondaryRequest s =
  (Returned tt,
   {| cache := cache s; now := now s; dateRangeSlug := dateRangeSlug s;
      maxRequests := maxRequests s; filters := filters s;
      trace := trace s ++ [DataLoaded FromCache];
      tasks := tasks s ++ cacheTimers p |}).
Proof.
  intros p Hc Hr. unfold combinedGet. fold p.
  unfold bind at 1. unfold get_state.
  unfold bind at 1. rewrite each_schedule.
  rewrite bool_decide_eq_true_2 by done. reflexivity.
Qed.

Lemma combinedGet_fetch (s : state) (combinedRequest : list request) (secondaryRequest : bool) :
  let p := make_plan s combinedRequest secondaryRequest in
  ¬ (currentRequest p = [] ∧ remainingDatapoints p = []) →
  combinedGet combinedRequest secondaryRequest s =
  (Returned tt,
   {| cache := cache s; now := now s; dateRangeSlug := dateRangeSlug s;
      maxRequests :=
        if bool_decide (remainingDatapoints p ≠ [] ∧ 0 < maxRequests s)
        then maxRequests s - 1 else 10;
      filters := filters s;
      trace := trace s ++ [ApiFetch datacacheParam (currentRequest p)];
      tasks := tasks s ++ cacheTimers p ++
               (if bool_decide (remainingDatapoints p ≠ [] ∧ 0 < maxRequests s)
                then [CombinedGetTimer 50 (remainingDatapoints p) true] else []) ++
               [PendingFetch (plan_ctx p)] |}).
Proof.
  intros p Hne. unfold combinedGet. fold p.
  unfold bind at 1. unfold get_state.
  unfold bind at 1. rewrite each_schedule.
  rewrite bool_decide_eq_false_2 by done.
  destruct (decide (remainingDatapoints p ≠ [])) as [Hr|Hr].
  - rewrite (bool_decide_eq_true_2 _ Hr).
    destruct (decide (0 < maxRequests s)) as [Hm|Hm].
    + rewrite (bool_decide_eq_true_2 (_ ∧ _)) by done.
      mred. rewrite (bool_decide_eq_true_2 _ Hm). simpl.
      by rewrite <- !app_assoc.
    + rewrite (bool_decide_eq_false_2 (_ ∧ _)) by tauto.
      mred. rewrite (bool_decide_eq_false_2 _ Hm). simpl.
      by rewrite <- !app_assoc.
  - rewrite (bool_decide_eq_false_2 _ Hr).
    rewrite (bool_decide_eq_false_2 (_ ∧ _)) by tauto.
    mred. by rewrite <- !app_assoc.
Qed.


(** The timer of C6 runs the recursive call as a secondary request. *)
Lemma step_fire_combinedGet (srv : server) (s : state) (i : nat) (delay : Z)
    (remaining : list request) (secondaryRequest : bool) :
  tasks s !! i = Some (CombinedGetTimer delay remaining secondaryRequest) →
  step srv (Fire i) s = (combinedGet remaining secondaryRequest (remove_task i s)).2.
Proof.
  intros Hi. simpl. rewrite Hi. unfold run_toplevel, try_catch.
  destruct (decide (currentRequest (make_plan (remove_task i s) remaining secondaryRequest) = [] ∧
                    remainingDatapoints (make_plan (remove_task i s) remaining secondaryRequest) = []))
    as [[Hc Hr]|Hne].
  - by rewrite combinedGet_early.
  - by rewrite combinedGet_fetch.
Qed.

End Pass.


(** ** Completion signals *)

Lemma api_signals_app (a b : list event) :
  api_signals (a ++ b) = (api_signals a + api_signals b)%nat.
Proof. unfold api_signals. by rewrite filter_app, length_app. Qed.

Ltac signals :=
  rewrite ?api_signals_app;
  repeat match goal with
         | |- context [api_signals (?e :: ?l)] =>
           let n := eval cbv in (api_signals (e :: l)) in
           change (api_signals (e :: l)) with n
         end.

Lemma api_signals_call_event (r : request) (res : result) :
  api_signals (call_event r res) = 0%nat.
Proof. unfold call_event. by destruct (callback r). Qed.

Lemma dispatch_signals (ctx : fetch_ctx) (isError : bool) (res : result) (i : nat) (s : state) :
  api_signals (trace (dispatch ctx isError res i s).2) = api_signals (trace s).
Proof.
  unfold dispatch. destruct (fc_dataRequest ctx !! i) as [r|]; [|done].
  rewrite (bind_returned _ _ _ tt) by (by destruct (negb isError)).
  rewrite resolve_state. simpl. rewrite api_signals_app, api_signals_call_event.
  destruct (negb isError); simpl; lia.
Qed.

Lemma dispatch_loop_signals (ctx : fetch_ctx) (isError : bool) (res : result)
    (idxs : list nat) (s : state) :
  api_signals (trace (each idxs (dispatch ctx isError res) s).2) = api_signals (trace s).
Proof.
  apply (each_preserves (λ s0, api_signals (trace s0) = api_signals (trace s))); [done|].
  intros i s0 _ <-. apply dispatch_signals.
Qed.

Lemma handleResult_signals (ctx : fetch_ctx) (entry : string * result) (s : state) :
  (handleResult ctx entry s).1 = Returned tt →
  api_signals (trace (handleResult ctx entry s).2) =
  (api_signals (trace s) +
   if bool_decide (fc_remainingDatapoints ctx = [])
   then (if decide (is_Some (fc_keyIndexesMap ctx !! entry.1)) then 1 else 0)
   else 0)%nat.
Proof.
  destruct entry as [k res]. rewrite handleResult_unfold. simpl.
  destruct (fc_keyIndexesMap ctx !! k) as [idxs|] eqn:Hk.
  - rewrite decide_True by done.
    unfold bind at 1 3.
    match goal with |- context [(if isWPError res then ?a else ?b) s] =>
      assert (Hb : api_signals (trace ((if isWPError res then a else b) s).2)
                   = api_signals (trace s));
      [|destruct ((if isWPError res then a else b) s) as [[[]|e] s1]; [|done]]
    end.
    { destruct (isWPError res); [|done].
      destruct (lookup_by_array _ _); [|done].
      rewrite handleWPError_spec. simpl. signals. lia. }
    simpl in Hb. unfold bind at 1 2.
    pose proof (dispatch_loop_signals ctx (isWPError res) res idxs s1) as Hl.
    destruct (each idxs _ s1) as [[[]|e] s2]; [|done]. simpl in Hl.
    intros _. case_bool_decide; mred; signals; lia.
  - rewrite decide_False by (by intros [? ?]).
    intros _. mred. signals. case_bool_decide; lia.
Qed.

Lemma handleResults_signals (ctx : fetch_ctx) (results : list (string * result)) (s : state) :
  (each results (handleResult ctx) s).1 = Returned tt →
  api_signals (trace (each results (handleResult ctx) s).2) =
  (api_signals (trace s) +
   if bool_decide (fc_remainingDatapoints ctx = [])
   then length (filter (λ entry, is_Some (fc_keyIndexesMap ctx !! entry.1)) results)
   else 0)%nat.
Proof.
  revert s. induction results as [|entry results IH]; intros s; simpl.
  { intros _. case_bool_decide; simpl; lia. }
  unfold bind. pose proof (handleResult_signals ctx entry s) as He.
  destruct (handleResult ctx entry s) as [[[]|e] s1]; [|done]. simpl in He.
  intros Hret. rewrite IH by done. rewrite He by done. rewrite filter_cons.
  case_bool_decide; [|lia]. destruct (decide _); simpl; lia.
Qed.

Section Completion.
Context `{Platform}.

Lemma splitCached_timers (s : state) (l : list request) (delay : Z) :
  Forall (λ t, ∃ d r c, t = ResolveTimer d r c) (splitCached s l delay).1.
Proof.
  revert delay. induction l as [|r l IH]; intros delay; simpl; [constructor|].
  destruct (getCache _ _ _ _) as [c|].
  - specialize (IH (delay + 25)). destruct (splitCached s l (delay + 25)) as [ts q].
    simpl in *. constructor; [eauto|done].
  - specialize (IH delay). by destruct (splitCached s l delay) as [ts q].
Qed.


End Completion.



(** ** Per-key errors *)

Lemma bind_preserves {A B} (I : state → Prop) (m : M A) (f : A → M B) (s : state) :
  I (m s).2 → (∀ a s1, I s1 → I (f a s1).2) → I (bind m f s).2.
Proof.
  intros Hm Hf. unfold bind. destruct (m s) as [[a|e] s1]; simpl in *; [|done].
  by apply Hf.
Qed.

(** Handling an error result never writes to the cache, however many
    requests share the key. *)
Lemma handleResult_error_cache (ctx : fetch_ctx) (k : string) (err : result) (s : state) :
  isWPError err = true → cache (handleResult ctx (k, err) s).2 = cache s.
Proof.
  intros He. rewrite handleResult_unfold, He.
  destruct (fc_keyIndexesMap ctx !! k) as [idxs|]; [|done].
  apply (bind_preserves (λ s0, cache s0 = cache s)).
  { destruct (lookup_by_array _ _) as [r|]; [|done]. by rewrite handleWPError_spec. }
  intros _ s1 Hs1. apply (bind_preserves (λ s0, cache s0 = cache s)).
  { apply (each_preserves (λ s0, cache s0 = cache s)); [done|].
    intros i s0 _ Hs0. unfold dispatch.
    destruct (fc_dataRequest ctx !! i) as [r'|]; [|done]. simpl.
    rewrite (bind_returned _ _ _ tt) by done. by rewrite resolve_state. }
  intros _ s2 Hs2. by case_bool_decide.
Qed.

(** What handling an error result does for a key with one recorded
    request. *)
Lemma handleResult_single_error (ctx : fetch_ctx) (k : string) (err : result) (i : nat)
    (r : request) (s : state) :
  fc_keyIndexesMap ctx !! k = Some [i] →
  fc_dataRequest ctx !! i = Some r →
  isWPError err = true →
  let s' := (handleResult ctx (k, err) s).2 in
  trace s' =
    trace s ++
    [ConsoleWarn "WP Error in data response";
     TrackAPIError "POST" (datapoint r) (type r) (identifier r) err] ++
    call_event r err ++
    (if throws r then []
     else if bool_decide (fc_remainingDatapoints ctx = []) then [DataLoaded FromAPI]
     else []) ∧
  cache s' = cache s ∧
  filters s' = filters s ++ registrations err.
Proof.
  intros Hk Hr He s'. subst s'.
  split; [|split; [by apply handleResult_error_cache|]].
  - rewrite handleResult_unfold, Hk, He. simpl. rewrite Hr.
    unfold bind at 1. rewrite handleWPError_spec.
    unfold each, dispatch. rewrite Hr. simpl.
    unfold resolve, throws, call_event.
    destruct (callback r) as [cb|]; [destruct (cb_throws cb)|];
      mred; try case_bool_decide; mred; by rewrite <- ?app_assoc, ?app_nil_r.
  - rewrite handleResult_unfold, Hk, He. simpl. rewrite Hr.
    unfold bind at 1. rewrite handleWPError_spec.
    unfold each, dispatch. rewrite Hr. simpl.
    unfold resolve.
    destruct (callback r) as [cb|]; [destruct (cb_throws cb)|];
      mred; try case_bool_decide; mred; done.
Qed.


(** The array of indexes is used as an index.  For a key that two or more
    requests share, an error result makes the handler throw before the
    classifier is invoked and before any callback is called. *)
Lemma handleResult_shared_error (ctx : fetch_ctx) (k : string) (err : result)
    (i j : nat) (idxs : list nat) (s : state) :
  fc_keyIndexesMap ctx !! k = Some (i :: j :: idxs) →
  isWPError err = true →
  ∃ e, handleResult ctx (k, err) s = (Threw e, s).
Proof.
  intros Hk He. rewrite handleResult_unfold, Hk, He. simpl. by eexists.
Qed.



(** ** Isolation of per-key failures *)

(** C2 (as amended).  When no callback throws, a response is handled to
    its end whatever error results it holds for keys that one request is
    recorded for: for every key of the response, error or not, each request
    recorded for the key has its callback called with the result of that
    key. *)
Theorem onResponse_isolates_errors (ctx : fetch_ctx) (results : list (string * result))
    (s : state) :
  ctx_wf ctx →
  (∀ i r, fc_dataRequest ctx !! i = Some r → throws r = false) →
  (∀ k res idxs, (k, res) ∈ results → isWPError res = true →
     fc_keyIndexesMap ctx !! k = Some idxs → ∃ i, idxs = [i]) →
  let s' := (onResponse ctx results s).2 in
  ∀ k res idxs i r e,
    (k, res) ∈ results → fc_keyIndexesMap ctx !! k = Some idxs → i ∈ idxs →
    fc_dataRequest ctx !! i = Some r → e ∈ call_event r res → e ∈ trace s'.
Proof.
  intros Hwf Hquiet Hone s'. subst s'.
  assert (Hret : ∀ entry s0, entry ∈ results → (handleResult ctx entry s0).1 = Returned tt).
  { intros [k res] s0 Hin.
    destruct (fc_keyIndexesMap ctx !! k) as [idxs|] eqn:Hk.
    - apply (handleResult_returns ctx k res idxs); eauto.
    - rewrite handleResult_unfold, Hk. done. }
  assert (Hall : (each results (handleResult ctx) s).1 = Returned tt).
  { by apply each_returned. }
  unfold onResponse, try_catch.
  intros k res idxs i r e Hin Hk Hi Hr He.
  pose proof (each_establishes
    (λ entry s0, ∀ idxs i r e, fc_keyIndexesMap ctx !! entry.1 = Some idxs → i ∈ idxs →
       fc_dataRequest ctx !! i = Some r → e ∈ call_event r entry.2 → e ∈ trace s0)
    results (handleResult ctx) s) as Hest.
  destruct (each results (handleResult ctx) s) as [[[]|ex] s1]; [|done]. simpl in *.
  apply (Hest ltac:(intros; by apply Hret)) with (x := (k, res)) (idxs := idxs) (i := i) (r := r);
    try done.
  - intros [k' res'] s0 Hin' idxs' i' r' e' Hk' Hi' Hr' He'. simpl in *.
    eapply (handleResult_calls ctx k' res' idxs'); eauto.
  - intros entry entry' s0 Hin' HP idxs' i' r' e' Hk' Hi' Hr' He'.
    eapply frame_keeps_event; [by apply handleResult_frame|]. by eapply HP.
Qed.

(** C2 as stated fails: the callback of the first key throws, and the
    request of the second key of the same response is never resolved. *)
Lemma onResponse_isolates_errors_counterexample :
  let reqs := [example_request "a" (Some 1) 1 true; example_request "b" (Some 2) 2 false] in
  let srv : server :=
    λ _, Some [("modules::analytics::a::last-28-days", RData "x");
               ("modules::analytics::b::last-28-days", RData "y")] in
  let w := @run example_platform srv [Respond 0]
             (@combinedGet example_platform reqs false example_state).2 in
  trace w = [ApiFetch false (example_keyed <$> reqs);
             Called 1 (RData "x") "a";
             ConsoleWarn "Error caught during combinedGet"] ∧
  tasks w = [] ∧
  ∀ res dp, Called 2 res dp ∉ trace w.
Proof.
  intros reqs srv w.
  assert (Htr : trace w = [ApiFetch false (example_keyed <$> reqs);
             Called 1 (RData "x") "a";
             ConsoleWarn "Error caught during combinedGet"]) by (vm_compute; done).
  split; [exact Htr|]. split; [vm_compute; done|].
  intros res dp Hin. rewrite Htr in Hin.
  repeat (apply elem_of_cons in Hin as [Hin|Hin]; [discriminate|]).
  by apply elem_of_nil in Hin.
Qed.

Lemma onResponse_isolates_errors_witness :
  let reqs := [example_request "a" (Some 1) 1 false; example_request "b" (Some 2) 2 false] in
  let p := @make_plan example_platform example_state reqs false in
  let results := [("modules::analytics::a::last-28-days", forbidden_error);
                  ("modules::analytics::b::last-28-days", RData "y")] in
  Called 2 (RData "y") "b" ∈ trace (onResponse (plan_ctx p) results example_state).2.
Proof.
  intros reqs p results.
  apply (onResponse_isolates_errors (plan_ctx p) results example_state)
    with (k := "modules::analytics::b::last-28-days") (res := RData "y")
         (idxs := [1%nat]) (i := 1%nat)
         (r := example_keyed (example_request "b" (Some 2) 2 false)).
  - apply (@plan_ctx_wf example_platform).
  - intros i r Hr. destruct i as [|[|i]]; vm_compute in Hr; [| |discriminate];
      injection Hr as <-; reflexivity.
  - intros k res idxs Hin Herr Hk.
    apply elem_of_cons in Hin as [Hin|Hin].
    + injection Hin as -> ->. vm_compute in Hk. injection Hk as <-. by eexists.
    + apply list_elem_of_singleton in Hin. injection Hin as -> ->. discriminate.
  - right. left.
  - vm_compute. reflexivity.
  - left.
  - vm_compute. reflexivity.
  - vm_compute. left.
Defined.

(** ** Notification registration *)

Lemma registered_app (c : component) (fs gs : list filter_reg) :
  registered c (fs ++ gs) = (registered c fs + registered c gs)%nat.
Proof. unfold registered. by rewrite filter_app, length_app. Qed.

Lemma classify_NoDup (error : result) : NoDup (classify error).
Proof.
  unfold classify. destruct error as [|code message [data|]]; try constructor.
  destruct (bool_decide _), (bool_decide _), (truthy _); simpl;
    repeat (constructor; [set_solver|]); constructor.
Qed.

Lemma registered_registrations (c : component) (error : result) :
  registered c (registrations error) = if decide (c ∈ classify error) then 1%nat else 0%nat.
Proof.
  unfold registrations, classify.
  destruct error as [|code message [data|]]; try (by rewrite decide_False by set_solver).
  destruct (bool_decide _), (bool_decide _), (truthy _), c;
    destruct (decide _) as [Hin|Hnin]; try reflexivity;
    solve [exfalso; set_solver].
Qed.

Lemma removeFilter_count_regs (st : state) :
  let st' := (removeFilter "googlesitekit.TotalNotifications"
                           "googlesitekit.AuthCountIncrease" st).2 in
  (∀ m, count_reg m ∉ filters st') ∧
  (∀ c, registered c (filters st') = registered c (filters st)).
Proof.
  mred. split.
  - intros m [Hm _]%list_elem_of_filter. by apply Hm.
  - intros c. unfold registered.
    induction (filters st) as [|r fs IH]; [done|].
    rewrite !filter_cons. destruct (decide (r = notification_reg c)) as [->|Hne].
    + rewrite decide_True by (by intros [? _]).
      rewrite filter_cons, decide_True by done. simpl. by rewrite IH.
    + destruct (decide _); [|done]. by rewrite filter_cons, decide_False.
Qed.



(** Three requests share a key that is answered with a "forbidden" error:
    the handler throws on the index lookup, the classifier is not invoked,
    nothing is registered and no callback is called. *)
Lemma shared_key_error_example :
  let reqs := [example_request "a" (Some 1) 1 false; example_request "a" (Some 1) 2 false;
               example_request "a" (Some 1) 3 false] in
  let srv : server := λ _, Some [("modules::analytics::a::last-28-days", forbidden_error)] in
  let w := @run example_platform srv [Respond 0]
             (@combinedGet example_platform reqs false example_state).2 in
  filters w = [] ∧
  trace w = [ApiFetch false [example_keyed (example_request "a" (Some 1) 1 false)];
             ConsoleWarn "Error caught during combinedGet"].
Proof. vm_compute. done. Qed.


(** ** Rounds of network calls *)

Lemma set_data_set_data (r : request) (d1 d2 : gmap string value) :
  set_data (set_data r d1) d2 = set_data r d2.
Proof. done. Qed.

Lemma union_singleton_present (d : gmap string value) (k : string) (v w : value) :
  d !! k = Some v → d ∪ {[k := w]} = d.
Proof.
  intros Hk. apply map_eq. intros k'. rewrite lookup_union.
  destruct (decide (k' = k)) as [->|Hne].
  - by rewrite Hk, lookup_singleton_eq.
  - rewrite lookup_singleton_ne by done. by destruct (d !! k').
Qed.

(** Normalising a normalised request changes nothing. *)
Lemma requestWithDateRange_idem (r : request) (slug : string) :
  requestWithDateRange (requestWithDateRange r slug) slug = requestWithDateRange r slug.
Proof.
  unfold requestWithDateRange at 2 3.
  set (d := default ∅ (data r)).
  destruct (decide (d !! "dateRange" = Some (VString placeholder))) as [Hp|Hp].
  - unfold requestWithDateRange. simpl.
    set (R := replace_first "last" "prev" slug).
    rewrite lookup_insert_eq. case_decide as HR.
    + by rewrite set_data_set_data, insert_insert_eq.
    + rewrite set_data_set_data. f_equal.
      eapply union_singleton_present. apply lookup_insert_eq.
  - unfold requestWithDateRange. simpl. rewrite set_data_set_data.
    destruct (d !! "dateRange") as [v|] eqn:Hd.
    + assert (Hl : (d ∪ {["dateRange" := VString slug]}) !! "dateRange" = Some v).
      { by apply lookup_union_Some_l. }
      rewrite Hl. rewrite decide_False by congruence.
      f_equal. by eapply union_singleton_present.
    + assert (Hl : (d ∪ {["dateRange" := VString slug]}) !! "dateRange"
                   = Some (VString slug)).
      { rewrite lookup_union_r by done. apply lookup_singleton_eq. }
      rewrite Hl. case_decide as Hs.
      * injection Hs as ->. f_equal.
        change (replace_first "last" "prev" placeholder) with placeholder.
        by apply insert_id.
      * f_equal. by eapply union_singleton_present.
Qed.

Section Rounds.
Context `{Platform}.

Lemma keyed_fields (slug : string) (r : request) :
  priority (keyed slug r) = priority r ∧ callback (keyed slug r) = callback r ∧
  datapoint (keyed slug r) = datapoint r ∧ maxAge (keyed slug r) = maxAge r.
Proof.
  unfold keyed. simpl. pose proof (requestWithDateRange_fields r slug). naive_solver.
Qed.

Lemma requestWithDateRange_set_key (r : request) (k slug : string) :
  requestWithDateRange (set_key r k) slug = set_key (requestWithDateRange r slug) k.
Proof. unfold requestWithDateRange. simpl. by case_decide. Qed.

(** Queueing a queued request again gives the same request, key included. *)
Lemma keyed_idem (slug : string) (r : request) : keyed slug (keyed slug r) = keyed slug r.
Proof.
  unfold keyed. rewrite requestWithDateRange_set_key, requestWithDateRange_idem. done.
Qed.

Lemma splitCached_no_hits (s : state) (l : list request) (delay : Z) :
  (∀ r, r ∈ l → cache s !! key_of (keyed (dateRangeSlug s) r) = None) →
  splitCached s l delay = ([], keyed (dateRangeSlug s) <$> l).
Proof.
  revert delay. induction l as [|r l IH]; intros delay Hmiss; simpl; [done|].
  unfold getCache. rewrite Hmiss by left.
  rewrite IH; [done|]. intros r' Hr'. apply Hmiss. by right.
Qed.

(** The plan of a pass over requests with distinct keys, none of them in
    the cache and none deferred: the sorted queue as a whole is to be
    requested. *)
Lemma plan_all_requested (s : state) (l : list request) (secondaryRequest : bool) :
  (∀ r, r ∈ l → cache s !! key_of (keyed (dateRangeSlug s) r) = None) →
  NoDup (key_of <$> (keyed (dateRangeSlug s) <$> l)) →
  (∀ r, r ∈ l → priority_ge_10 r = false) →
  let p := make_plan s l secondaryRequest in
  let queue := sortBy_priority (keyed (dateRangeSlug s) <$> l) in
  cacheTimers p = [] ∧ dataRequest p = queue ∧
  currentRequest p = take 10 queue ∧ remainingDatapoints p = drop 10 queue.
Proof.
  intros Hmiss Hnd Hprio p queue.
  assert (Hsplit := splitCached_no_hits s l 25 Hmiss).
  assert (Hdata : dataRequest p = queue).
  { unfold p. by rewrite plan_dataRequest, Hsplit. }
  assert (Hdefer : ∀ r, r ∈ queue →
            defer_test secondaryRequest (noLowPriorityRequests p) r = false).
  { intros r Hr. unfold queue in Hr. rewrite sortBy_priority_perm in Hr.
    apply list_elem_of_fmap in Hr as (r0 & -> & Hr0).
    unfold defer_test, priority_ge_10.
    destruct (keyed_fields (dateRangeSlug s) r0) as (-> & _).
    specialize (Hprio r0 Hr0). unfold priority_ge_10 in Hprio. rewrite Hprio.
    by rewrite andb_false_r. }
  assert (Hto : toRequest (sorted p) = queue).
  { unfold p. rewrite plan_toRequest. fold p. rewrite Hdata.
    apply first_occurrences_all.
    - unfold queue. by rewrite sortBy_priority_perm.
    - apply Forall_forall. intros r Hr. split; [by apply Hdefer|set_solver]. }
  assert (Hdef : deferredRequests (sorted p) = []).
  { unfold p. rewrite plan_deferredRequests. fold p. rewrite Hdata.
    destruct (filter _ queue) as [|r rest] eqn:E; [done|].
    assert (Hin : r ∈ r :: rest) by left. rewrite <- E in Hin.
    apply list_elem_of_filter in Hin as [Hd Hin]. rewrite Hdefer in Hd; done. }
  split; [unfold p; by rewrite plan_cacheTimers, Hsplit|].
  split; [done|]. split.
  - unfold p. rewrite plan_currentRequest. fold p. by rewrite Hto.
  - unfold p. rewrite plan_remainingDatapoints. fold p. by rewrite Hto, Hdef, app_nil_r.
Qed.

End Rounds.

Section EventLoop.
Context `{Platform} (srv : server).

Lemma step_respond_frame (s : state) (i : nat) (ctx : fetch_ctx) :
  tasks s !! i = Some (PendingFetch ctx) → ctx_wf ctx → answers_requested srv →
  response_frame (key_of <$> fc_currentRequest ctx) (remove_task i s) (step srv (Respond i) s).
Proof.
  intros Hi Hwf Hsrv. simpl. rewrite Hi. unfold run_toplevel, try_catch.
  destruct (srv (fc_currentRequest ctx)) as [results|] eqn:Hres.
  - pose proof (onResponse_returns ctx results (remove_task i s)) as Hret.
    pose proof (onResponse_frame ctx results (remove_task i s) Hwf) as Hfr.
    destruct (onResponse ctx results (remove_task i s)) as [[[]|e] s1]; [|done].
    simpl in *. eapply response_frame_weaken; [|exact Hfr]. by eapply Hsrv.
  - exact (response_frame_events _ [ConsoleWarn "Error caught during combinedGet"]
             (remove_task i s) ltac:(repeat constructor)).
Qed.

Lemma step_respond_frame_any (s : state) (i : nat) (ctx : fetch_ctx) :
  tasks s !! i = Some (PendingFetch ctx) → ctx_wf ctx →
  ∃ keys, response_frame keys (remove_task i s) (step srv (Respond i) s).
Proof.
  intros Hi Hwf. simpl. rewrite Hi. unfold run_toplevel, try_catch.
  destruct (srv (fc_currentRequest ctx)) as [results|] eqn:Hres.
  - pose proof (onResponse_returns ctx results (remove_task i s)) as Hret.
    pose proof (onResponse_frame ctx results (remove_task i s) Hwf) as Hfr.
    destruct (onResponse ctx results (remove_task i s)) as [[[]|e] s1]; [|done].
    by eexists.
  - exists [].
    exact (response_frame_events _ [ConsoleWarn "Error caught during combinedGet"]
             (remove_task i s) ltac:(repeat constructor)).
Qed.

(** While only network calls are pending, no further network call is made. *)
Lemma step_fetch_only (s : state) (t : turn) :
  Forall wf_fetch (tasks s) →
  Forall wf_fetch (tasks (step srv t s)) ∧ fetches (step srv t s) = fetches s.
Proof.
  intros Hall. destruct t as [dt|i|i].
  - done.
  - simpl. destruct (tasks s !! i) as [t|] eqn:Hi; [|done].
    pose proof Hall as Hall'. rewrite Forall_forall in Hall'.
    destruct (Hall' t) as (ctx & -> & _); [by eapply list_elem_of_lookup_2|]. done.
  - destruct (tasks s !! i) as [t|] eqn:Hi; [|by simpl; rewrite Hi].
    pose proof Hall as Hall'. rewrite Forall_forall in Hall'.
    destruct (Hall' t) as (ctx & -> & Hwf); [by eapply list_elem_of_lookup_2|].
    destruct (step_respond_frame_any s i ctx Hi Hwf) as (keys & _ & _ & _ & Ht & _ & Hf & _).
    rewrite Ht, Hf. split; [|done]. simpl. by apply Forall_delete.
Qed.

Lemma run_fetch_only (turns : list turn) (s : state) :
  Forall wf_fetch (tasks s) →
  Forall wf_fetch (tasks (run srv turns s)) ∧ fetches (run srv turns s) = fetches s.
Proof.
  revert s. induction turns as [|t turns IH]; intros s Hall; [done|].
  simpl. destruct (step_fetch_only s t Hall) as [Hall' Hf].
  destruct (IH _ Hall') as [? Hf']. split; [done|]. by rewrite Hf', Hf.
Qed.

Lemma pending_round_fetch_only (s : state) :
  Forall wf_fetch (tasks s) → pending_round s = false.
Proof.
  intros Hall. unfold pending_round. apply not_true_is_false.
  intros (t & Ht%list_elem_of_In & Hr)%existsb_exists.
  rewrite Forall_forall in Hall. by destruct (Hall t Ht) as (ctx & -> & _).
Qed.

End EventLoop.

Lemma fmap_id_on {A} (f : A → A) (l : list A) : (∀ x, x ∈ l → f x = x) → f <$> l = l.
Proof.
  induction l as [|x l IH]; intros Hf; [done|].
  rewrite fmap_cons, Hf by left. f_equal. apply IH. intros y Hy. apply Hf. by right.
Qed.

Lemma fetches_snoc (s : state) (ts : list task) (m : Z) (b : bool) (l : list request) :
  fetches {| cache := cache s; now := now s; dateRangeSlug := dateRangeSlug s;
             maxRequests := m; filters := filters s;
             trace := trace s ++ [ApiFetch b l]; tasks := ts |} = fetches s ++ [l].
Proof. unfold fetches. simpl. by rewrite omap_app. Qed.

Section Batches.
Context `{Platform} (srv : server) (slug : string).

(** A pass over a sorted queue of queued requests with distinct keys, none
    cached and none of priority 10 or more, of which at most 10 are left:
    one more network call, with all of them, and no further round. *)
Lemma last_round (s : state) (chunk : list request) (secondaryRequest : bool) :
  dateRangeSlug s = slug →
  (∀ r, r ∈ chunk → keyed slug r = r) →
  StronglySorted priority_rel chunk →
  NoDup (key_of <$> chunk) →
  (∀ r, r ∈ chunk → priority_ge_10 r = false) →
  (0 < length chunk ≤ 10)%nat →
  (∀ k, k ∈ key_of <$> chunk → cache s !! k = None) →
  Forall wf_fetch (tasks s) →
  let s' := (combinedGet chunk secondaryRequest s).2 in
  Forall wf_fetch (tasks s') ∧ fetches s' = fetches s ++ [chunk].
Proof.
  intros Hslug Hkeyed Hsorted Hnd Hprio Hlen Hmiss Hall s'.
  assert (Hid : keyed (dateRangeSlug s) <$> chunk = chunk).
  { rewrite Hslug. by apply fmap_id_on. }
  destruct (plan_all_requested s chunk secondaryRequest) as (Ht & Hd & Hc & Hr).
  { intros r Hr. rewrite Hslug, Hkeyed by done. apply Hmiss. by apply list_elem_of_fmap_2. }
  { by rewrite Hid. }
  { done. }
  rewrite Hid, sortBy_priority_id in Hc, Hr by done.
  rewrite take_ge in Hc by lia. rewrite drop_ge in Hr by lia.
  subst s'. rewrite combinedGet_fetch.
  2:{ rewrite Hc. intros [-> _]. simpl in Hlen. lia. }
  rewrite Ht, Hc, Hr. rewrite bool_decide_eq_false_2 by (by intros [? _]).
  split.
  - simpl. apply Forall_app. split; [done|].
    constructor; [|done]. eexists. split; [done|]. apply plan_ctx_wf.
  - apply fetches_snoc.
Qed.

Section FromFreshPage.
Context (t0 : Z) (reqs : list request).
Context (Hunique : NoDup (key_of <$> (keyed slug <$> reqs))).
Context (Hhigh : ∀ r, r ∈ reqs → high_priority r).

Local Abbreviation queue := (sortBy_priority (keyed slug <$> reqs)).
Local Abbreviation s0 := (initial_state slug t0).

Lemma queue_keyed (r : request) : r ∈ queue → keyed slug r = r.
Proof.
  rewrite sortBy_priority_perm. intros (r0 & -> & _)%list_elem_of_fmap. apply keyed_idem.
Qed.

Lemma queue_high (r : request) : r ∈ queue → priority_ge_10 r = false.
Proof.
  rewrite sortBy_priority_perm. intros (r0 & -> & Hr0)%list_elem_of_fmap.
  destruct (Hhigh r0 Hr0) as (x & Hp & Hx). unfold priority_ge_10.
  destruct (keyed_fields slug r0) as (-> & _). rewrite Hp.
  apply bool_decide_eq_false. lia.
Qed.

Lemma queue_NoDup : NoDup (key_of <$> queue).
Proof. by rewrite sortBy_priority_perm. Qed.

Lemma queue_length : length queue = length reqs.
Proof. by rewrite sortBy_priority_perm, length_fmap. Qed.

Lemma first_pass_plan :
  let p := make_plan s0 reqs false in
  cacheTimers p = [] ∧ dataRequest p = queue ∧
  currentRequest p = take 10 queue ∧ remainingDatapoints p = drop 10 queue.
Proof.
  apply (plan_all_requested s0 reqs false).
  - intros r _. apply lookup_empty.
  - done.
  - intros r Hr. destruct (Hhigh r Hr) as (x & Hp & Hx). unfold priority_ge_10.
    rewrite Hp. apply bool_decide_eq_false. lia.
Qed.

(** One to ten requests: one network call, and never another. *)
Lemma single_round (turns : list turn) :
  (1 ≤ length reqs ≤ 10)%nat →
  fetches (run srv turns (combinedGet reqs false s0).2) = [queue].
Proof.
  intros Hlen. destruct first_pass_plan as (Ht & Hd & Hc & Hr).
  rewrite take_ge in Hc by (rewrite queue_length; lia).
  rewrite drop_ge in Hr by (rewrite queue_length; lia).
  assert (Hne : queue ≠ []).
  { intros Hq. pose proof queue_length as Hl. rewrite Hq in Hl. simpl in Hl. lia. }
  rewrite combinedGet_fetch by (rewrite Hc; tauto).
  rewrite Ht, Hc, Hr. rewrite bool_decide_eq_false_2 by (by intros [? _]).
  match goal with |- fetches (run srv turns ?s1) = _ =>
    destruct (run_fetch_only srv turns s1) as [_ ->]
  end.
  - simpl. constructor; [|done]. eexists. split; [done|]. apply plan_ctx_wf.
  - done.
Qed.


Context (Hsrv : answers_requested srv).

Local Abbreviation c1 := (take 10 queue).
Local Abbreviation c2 := (drop 10 queue).

Lemma chunks_disjoint (k : string) : k ∈ key_of <$> c1 → k ∉ key_of <$> c2.
Proof.
  pose proof queue_NoDup as Hnd.
  rewrite <- (take_drop 10 queue), fmap_app in Hnd.
  apply NoDup_app in Hnd as (_ & Hdis & _). apply Hdis.
Qed.

Lemma second_chunk_facts :
  (∀ r, r ∈ c2 → keyed slug r = r) ∧ StronglySorted priority_rel c2 ∧
  NoDup (key_of <$> c2) ∧ (∀ r, r ∈ c2 → priority_ge_10 r = false).
Proof.
  assert (Hsub : ∀ r, r ∈ c2 → r ∈ queue).
  { intros r Hr. rewrite <- (take_drop 10 queue). apply elem_of_app. by right. }
  split; [intros r Hr; by apply queue_keyed, Hsub|]. split.
  { pose proof (sortBy_priority_sorted (keyed slug <$> reqs)) as Hs.
    rewrite <- (take_drop 10 queue) in Hs. by apply StronglySorted_app_1_r in Hs. }
  split.
  { pose proof queue_NoDup as Hnd.
    rewrite <- (take_drop 10 queue), fmap_app in Hnd. by apply NoDup_app in Hnd as (_ & _ & ?). }
  intros r Hr. by apply queue_high, Hsub.
Qed.

Lemma waiting_round_step (w : state) (t : turn) :
  (10 < length reqs ≤ 20)%nat →
  waiting_round slug c1 c2 w →
  waiting_round slug c1 c2 (step srv t w) ∨ rounds_done c1 c2 (step srv t w).
Proof.
  intros Hlen (rest & Htasks & Hrest & Hf & Hslug & Hmiss).
  destruct second_chunk_facts as (Hkeyed & Hsorted & Hnd & Hprio).
  destruct t as [dt|i|i].
  - left. exists rest. by repeat split.
  - destruct i as [|i].
    + right. rewrite (step_fire_combinedGet srv w 0 50 c2 true) by (by rewrite Htasks).
      destruct (last_round (remove_task 0 w) c2 true) as [Hall Hfs]; try done.
      * rewrite length_drop, queue_length. lia.
      * simpl. rewrite Htasks. simpl.
        eapply Forall_impl; [exact Hrest|]. intros t (ctx & -> & Hwf & _). by exists ctx.
      * split; [done|]. rewrite Hfs. unfold fetches at 1. simpl. fold (fetches w).
        by rewrite Hf.
    + left. simpl. rewrite Htasks. simpl.
      destruct (rest !! i) as [t|] eqn:Hi.
      * pose proof Hrest as Hrest'. rewrite Forall_forall in Hrest'.
        destruct (Hrest' t) as (ctx & -> & _); [by eapply list_elem_of_lookup_2|].
        exists rest. by repeat split.
      * exists rest. by repeat split.
  - destruct i as [|i].
    + left. simpl. rewrite Htasks. simpl. exists rest. by repeat split.
    + destruct (rest !! i) as [t|] eqn:Hi.
      2:{ left. simpl. rewrite Htasks. simpl. rewrite Hi. exists rest. by repeat split. }
      pose proof Hrest as Hrest'. rewrite Forall_forall in Hrest'.
      destruct (Hrest' t) as (ctx & -> & Hwf & Hdis); [by eapply list_elem_of_lookup_2|].
      assert (Hlook : tasks w !! S i = Some (PendingFetch ctx)) by (by rewrite Htasks).
      destruct (step_respond_frame srv w (S i) ctx Hlook Hwf Hsrv)
        as (_ & Hs' & _ & Ht' & _ & Hf' & Hc').
      left. exists (delete i rest). split.
      { rewrite Ht'. simpl. by rewrite Htasks. }
      split; [by apply Forall_delete|].
      split; [by rewrite Hf'|]. split; [by rewrite Hs'|].
      intros k Hk. rewrite Hc'; [by apply Hmiss|].
      intros Hin. by apply (Hdis k).
Qed.

Lemma waiting_round_run (turns : list turn) (w : state) :
  (10 < length reqs ≤ 20)%nat →
  waiting_round slug c1 c2 w →
  waiting_round slug c1 c2 (run srv turns w) ∨ rounds_done c1 c2 (run srv turns w).
Proof.
  intros Hlen. revert w. induction turns as [|t turns IH]; intros w Hw; [by left|].
  simpl. destruct (waiting_round_step w t Hlen Hw) as [Hw'|[Hall Hf]].
  - by apply IH.
  - right. destruct (run_fetch_only srv turns _ Hall) as [Hall' Hf'].
    split; [done|]. by rewrite Hf'.
Qed.

Lemma first_pass_waiting :
  (10 < length reqs ≤ 20)%nat →
  waiting_round slug c1 c2 (combinedGet reqs false s0).2.
Proof.
  intros Hlen. destruct first_pass_plan as (Ht & Hd & Hc & Hr).
  assert (Hne : c2 ≠ []).
  { intros Hq. apply (f_equal length) in Hq. rewrite length_drop, queue_length in Hq.
    simpl in Hq. lia. }
  rewrite combinedGet_fetch.
  2:{ rewrite Hr. tauto. }
  rewrite Ht, Hc, Hr. rewrite bool_decide_eq_true_2 by (split; [done|simpl; lia]).
  exists [PendingFetch (plan_ctx (make_plan s0 reqs false))]. simpl.
  split; [done|]. split.
  { constructor; [|done]. eexists. split; [done|]. split; [apply plan_ctx_wf|].
    simpl. rewrite Hc. apply chunks_disjoint. }
  split; [done|]. split; [done|]. intros k _. apply lookup_empty.
Qed.

(** Eleven to twenty requests: two network calls, the second when the
    timer of the second round has fired, and never a third. *)
Lemma two_rounds (turns : list turn) :
  (10 < length reqs ≤ 20)%nat →
  let w := run srv turns (combinedGet reqs false s0).2 in
  (pending_round w = true ∧ fetches w = [c1]) ∨
  (pending_round w = false ∧ fetches w = [c1; c2]).
Proof.
  intros Hlen w.
  destruct (waiting_round_run turns _ Hlen (first_pass_waiting Hlen))
    as [(rest & Htasks & _ & Hf & _)|[Hall Hf]].
  - left. split; [|done]. unfold pending_round. subst w. rewrite Htasks. done.
  - right. split; [|done]. by apply pending_round_fetch_only.
Qed.

Lemma two_rounds_fire :
  (10 < length reqs ≤ 20)%nat →
  fetches (run srv [Fire 0] (combinedGet reqs false s0).2) = [c1; c2].
Proof.
  intros Hlen.
  destruct (first_pass_waiting Hlen) as (rest & Htasks & Hrest & Hf & Hslug & Hmiss).
  destruct (waiting_round_step _ (Fire 0) Hlen (first_pass_waiting Hlen))
    as [(rest' & Htasks' & _)|[_ Hf']]; [|done].
  exfalso.
  rewrite (step_fire_combinedGet srv _ 0 50 c2 true) in Htasks' by (by rewrite Htasks).
  destruct second_chunk_facts as (Hkeyed & Hsorted & Hnd & Hprio).
  destruct (last_round (remove_task 0 (combinedGet reqs false s0).2) c2 true) as [Hall _];
    try done.
  - rewrite length_drop, queue_length. lia.
  - simpl. rewrite Htasks. simpl.
    eapply Forall_impl; [exact Hrest|]. intros t (ctx & -> & Hwf & _). by exists ctx.
  - rewrite Htasks' in Hall. apply Forall_cons in Hall as [(ctx & ? & _) _]. done.
Qed.

End FromFreshPage.
End Batches.



Lemma example_server_answers_requested : answers_requested example_server.
Proof.
  intros reqs results [= <-] k Hk. rewrite <- list_fmap_compose in Hk. exact Hk.
Qed.

